(** * Line- and token-level diff engine of diffiew (src/lib/diff.ts)

    A shallow embedding of [computeDiff], [computeCharDiff] and
    [enhanceWithCharDiffs].  Strings are Stdlib [string]s (lists of
    ASCII characters, standing for the JS UTF-16 code units); indices and
    line numbers are [nat]; an optional TS field is an [option]; a
    mutable array that is only pushed to is a list extended at its end.
    Each [while] loop is a step function on an explicit loop state, run
    by a fuel-bounded driver; the fuel is an upper bound on the number of
    iterations, and the termination theorems show that the driver always
    leaves the loop through its own condition, never by running out. *)

From Stdlib Require Import List String Ascii Arith Bool Lia.
Import ListNotations.
Open Scope string_scope.
Open Scope list_scope.
Open Scope nat_scope.

(** ** Data model *)

(** [DiffLine.type] *)
Inductive LineType : Type := Equal | Insert | Delete | Modify.

(** [CharDiff.type] *)
Inductive CharType : Type := CEqual | CInsert | CDelete.

Definition CharType_eqb (a b : CharType) : bool :=
  match a, b with
  | CEqual, CEqual | CInsert, CInsert | CDelete, CDelete => true
  | _, _ => false
  end.

(** [type CharDiff = { type; text }] *)
Record CharDiff : Type := mkCharDiff { char_type : CharType; text : string }.

(** [type DiffLine]: every field but [type] is optional. *)
Record DiffLine : Type := mkDiffLine {
  type : LineType;
  leftLine : option string;
  rightLine : option string;
  leftLineNumber : option nat;
  rightLineNumber : option nat;
  leftCharDiffs : option (list CharDiff);
  rightCharDiffs : option (list CharDiff)
}.

(** Object literals of [computeDiff], which never set the span fields. *)
Definition insertLine (s : string) (n : nat) : DiffLine :=
  mkDiffLine Insert None (Some s) None (Some n) None None.
Definition deleteLine (s : string) (n : nat) : DiffLine :=
  mkDiffLine Delete (Some s) None (Some n) None None None.
Definition equalLine (l r : string) (ln rn : nat) : DiffLine :=
  mkDiffLine Equal (Some l) (Some r) (Some ln) (Some rn) None None.
Definition modifyLine (l r : string) (ln rn : nat) : DiffLine :=
  mkDiffLine Modify (Some l) (Some r) (Some ln) (Some rn) None None.

(** ** String helpers *)

Definition LF : ascii := ascii_of_nat 10.
Definition CR : ascii := ascii_of_nat 13.

(** [text.replace(/\r\n?/g, "\n")] *)
Fixpoint normalizeNewlines (s : string) : string :=
  match s with
  | EmptyString => EmptyString
  | String c rest =>
      if Ascii.eqb c CR then
        match rest with
        | String c2 rest2 =>
            if Ascii.eqb c2 LF then String LF (normalizeNewlines rest2)
            else String LF (normalizeNewlines rest)
        | EmptyString => String LF EmptyString
        end
      else String c (normalizeNewlines rest)
  end.

(** [text.split("\n")]: JS [split] with a one-character separator; it
    always returns at least one piece. *)
Fixpoint split_nl (s : string) : list string :=
  match s with
  | EmptyString => [EmptyString]
  | String c rest =>
      if Ascii.eqb c LF then EmptyString :: split_nl rest
      else match split_nl rest with
           | h :: t => String c h :: t
           | [] => [String c EmptyString]
           end
  end.

(** [splitLines] *)
Definition splitLines (text : string) : list string :=
  if String.length text =? 0 then [] else split_nl text.

(** [xs[i]] for an index the code has checked to be in range. *)
Definition at_ (xs : list string) (i : nat) : string := nth i xs EmptyString.

(** [x !== -1 && p(x)] for an index held as [option nat] ([-1] is [None]). *)
Definition opt_test (p : nat -> bool) (o : option nat) : bool :=
  match o with Some x => p x | None => false end.
(** [x === -1] *)
Definition is_none (o : option nat) : bool :=
  match o with Some _ => false | None => true end.
(** The value of an index already tested to be [!== -1]. *)
Definition opt_get (o : option nat) : nat :=
  match o with Some x => x | None => 0 end.

(** ** computeDiff *)

Section ComputeDiff.
Variables leftLines rightLines : list string.

(** The loop variables [leftIndex], [rightIndex], [leftLineNum],
    [rightLineNum] and the [result] array. *)
Record LoopState : Type := mkLoopState {
  leftIndex : nat;
  rightIndex : nat;
  leftLineNum : nat;
  rightLineNum : nat;
  result : list DiffLine
}.

(** [rightLineMap.get(line) || []]: the map is filled by [forEach] over
    [rightLines], so the value of a key is the list of its positions in
    increasing order, and a missing key yields [[]]. *)
Definition rightLineMap_get (line : string) : list nat :=
  filter (fun idx => String.eqb (at_ rightLines idx) line)
         (seq 0 (List.length rightLines)).

(** The [for (const matchIdx of possibleMatches)] loop; [bestMatch = -1]
    is [None], [bestDistance = Infinity] is [None]. *)
Fixpoint findBestMatch (rightIndex : nat) (ms : list nat)
    (bestMatch bestDistance : option nat) : option nat :=
  match ms with
  | [] => bestMatch
  | matchIdx :: ms' =>
      if rightIndex <=? matchIdx then
        let distance := matchIdx - rightIndex in
        let better := match bestDistance with
                      | None => true
                      | Some d => distance <? d
                      end in
        if better then findBestMatch rightIndex ms' (Some matchIdx) (Some distance)
        else findBestMatch rightIndex ms' bestMatch bestDistance
      else findBestMatch rightIndex ms' bestMatch bestDistance
  end.

(** [for (let i = from; i < stop; i++) if (leftLines[i] === cur)
    { leftMatch = i; break; }], with [count = stop - from]. *)
Fixpoint findLeftMatch (cur : string) (i count : nat) : option nat :=
  match count with
  | 0 => None
  | S count' =>
      if String.eqb (at_ leftLines i) cur then Some i
      else findLeftMatch cur (S i) count'
  end.

(** One [insert] push followed by [rightIndex++]. *)
Definition pushInsert (st : LoopState) : LoopState :=
  mkLoopState (leftIndex st) (S (rightIndex st)) (leftLineNum st)
    (S (rightLineNum st))
    (result st ++ [insertLine (at_ rightLines (rightIndex st)) (rightLineNum st)]).

(** One [delete] push followed by [leftIndex++]. *)
Definition pushDelete (st : LoopState) : LoopState :=
  mkLoopState (S (leftIndex st)) (rightIndex st) (S (leftLineNum st))
    (rightLineNum st)
    (result st ++ [deleteLine (at_ leftLines (leftIndex st)) (leftLineNum st)]).

(** [while (rightIndex < bestMatch)]: [k = bestMatch - rightIndex]
    iterations. *)
Fixpoint insertUntil (k : nat) (st : LoopState) : LoopState :=
  match k with
  | 0 => st
  | S k' => insertUntil k' (pushInsert st)
  end.

(** [while (leftIndex < leftMatch)] *)
Fixpoint deleteUntil (k : nat) (st : LoopState) : LoopState :=
  match k with
  | 0 => st
  | S k' => deleteUntil k' (pushDelete st)
  end.

(** The body of the main [while] loop. *)
Definition diffStep (st : LoopState) : LoopState :=
  let li := leftIndex st in
  let ri := rightIndex st in
  if List.length leftLines <=? li then pushInsert st
  else if List.length rightLines <=? ri then pushDelete st
  else if String.eqb (at_ leftLines li) (at_ rightLines ri) then
    mkLoopState (S li) (S ri) (S (leftLineNum st)) (S (rightLineNum st))
      (result st ++ [equalLine (at_ leftLines li) (at_ rightLines ri)
                               (leftLineNum st) (rightLineNum st)])
  else
    let currentLeft := at_ leftLines li in
    let possibleMatches := rightLineMap_get currentLeft in
    let bestMatch := findBestMatch ri possibleMatches None None in
    let currentRight := at_ rightLines ri in
    let leftMatch :=
      findLeftMatch currentRight (S li)
        (Nat.min (li + 20) (List.length leftLines) - S li) in
    if opt_test (fun b => b =? S ri) bestMatch && is_none leftMatch then
      pushInsert st
    else if opt_test (fun a => a =? S li) leftMatch && is_none bestMatch then
      pushDelete st
    else if opt_test (fun b => b <? ri + 10) bestMatch then
      insertUntil (opt_get bestMatch - ri) st
    else if opt_test (fun a => a <? li + 10) leftMatch then
      deleteUntil (opt_get leftMatch - li) st
    else
      mkLoopState (S li) (S ri) (S (leftLineNum st)) (S (rightLineNum st))
        (result st ++ [modifyLine (at_ leftLines li) (at_ rightLines ri)
                        (leftLineNum st) (rightLineNum st)]).

(** The loop condition. *)
Definition diffCond (st : LoopState) : bool :=
  (leftIndex st <? List.length leftLines) || (rightIndex st <? List.length rightLines).

Fixpoint diffLoop (fuel : nat) (st : LoopState) : LoopState :=
  if diffCond st then
    match fuel with
    | 0 => st
    | S fuel' => diffLoop fuel' (diffStep st)
    end
  else st.

Definition diffInit : LoopState := mkLoopState 0 0 1 1 [].

(** Each iteration advances at least one index, so [length + length]
    iterations suffice. *)
Definition diffFuel : nat := List.length leftLines + List.length rightLines.

End ComputeDiff.

(** [computeDiff(left, right)] *)
Definition computeDiff (left right : string) : list DiffLine :=
  let leftLines := splitLines (normalizeNewlines left) in
  let rightLines := splitLines (normalizeNewlines right) in
  result (diffLoop leftLines rightLines (diffFuel leftLines rightLines)
            (diffInit)).

(** ** Tokenizer *)

(** JS [\s] on the code units an ASCII string can hold: tab, line feed,
    vertical tab, form feed, carriage return and space. *)
Definition is_ws (c : ascii) : bool :=
  let n := nat_of_ascii c in (n =? 32) || ((9 <=? n) && (n <=? 13)).

(** The leading run of whitespace of a string, and what follows it. *)
Fixpoint span_ws (s : string) : string * string :=
  match s with
  | EmptyString => (EmptyString, EmptyString)
  | String c r =>
      if is_ws c then let (w, r') := span_ws r in (String c w, r')
      else (EmptyString, s)
  end.

(** The leading run of non-whitespace ([\S+]), and what follows it. *)
Fixpoint span_word (s : string) : string * string :=
  match s with
  | EmptyString => (EmptyString, EmptyString)
  | String c r =>
      if is_ws c then (EmptyString, s)
      else let (w, r') := span_word r in (String c w, r')
  end.

(** The [wordRegex.exec] loop of [tokenize], on the suffix [rest] that
    starts at [lastIndex].  An [exec] that finds a word pushes the
    whitespace before it (when non-empty) and the word; when it finds
    none, the remaining whitespace is pushed (when non-empty).  Every
    round consumes a non-empty word, so [fuel = length text] is never
    exhausted; an exhausted fuel would keep the unread suffix as one
    token. *)
Fixpoint tokenizeLoop (fuel : nat) (rest : string) : list string :=
  let (ws, after) := span_ws rest in
  match after with
  | EmptyString =>
      if 0 <? String.length rest then [rest] else []
  | String _ _ =>
      match fuel with
      | 0 => [rest]
      | S fuel' =>
          let (word, rest') := span_word after in
          (if 0 <? String.length ws then [ws] else []) ++
          word :: tokenizeLoop fuel' rest'
      end
  end.

(** [tokenize(text)]: [tokens.length > 0 ? tokens : [text]] *)
Definition tokenize (text : string) : list string :=
  match tokenizeLoop (String.length text) text with
  | [] => [text]
  | tokens => tokens
  end.

(** ** computeCharDiff *)

(** [if (xs.length > 0 && xs[xs.length - 1].type === k)
      xs[xs.length - 1].text += tok; else xs.push({ type: k, text: tok });] *)
Fixpoint pushMerge (k : CharType) (tok : string) (xs : list CharDiff)
    : list CharDiff :=
  match xs with
  | [] => [mkCharDiff k tok]
  | [x] => if CharType_eqb (char_type x) k
           then [mkCharDiff (char_type x) (text x ++ tok)]
           else [x; mkCharDiff k tok]
  | x :: xs' => x :: pushMerge k tok xs'
  end.

(** Which side of the look-ahead found a match. *)
Inductive LookAhead : Type := FoundLeft | FoundRight.

Section CharDiffLoop.
Variables leftTokens rightTokens : list string.

(** [leftIdx], [rightIdx], [result.left], [result.right] *)
Record CDState : Type := mkCDState {
  leftIdx : nat;
  rightIdx : nat;
  resLeft : list CharDiff;
  resRight : list CharDiff
}.

(** [for (lookAhead = 1; lookAhead <= maxLookAhead && !foundMatch;
    lookAhead++)], with [count] rounds left. *)
Fixpoint lookAheadLoop (li ri lookAhead count : nat) : option LookAhead :=
  match count with
  | 0 => None
  | S count' =>
      if (li + lookAhead <? List.length leftTokens) &&
         String.eqb (at_ leftTokens (li + lookAhead)) (at_ rightTokens ri)
      then Some FoundLeft
      else if (ri + lookAhead <? List.length rightTokens) &&
              String.eqb (at_ leftTokens li) (at_ rightTokens (ri + lookAhead))
      then Some FoundRight
      else lookAheadLoop li ri (S lookAhead) count'
  end.

(** The body of the [while] loop of [computeCharDiff]. *)
Definition cdStep (st : CDState) : CDState :=
  let li := leftIdx st in
  let ri := rightIdx st in
  if List.length leftTokens <=? li then
    mkCDState li (S ri) (resLeft st)
      (pushMerge CInsert (at_ rightTokens ri) (resRight st))
  else if List.length rightTokens <=? ri then
    mkCDState (S li) ri
      (pushMerge CDelete (at_ leftTokens li) (resLeft st)) (resRight st)
  else if String.eqb (at_ leftTokens li) (at_ rightTokens ri) then
    mkCDState (S li) (S ri)
      (pushMerge CEqual (at_ leftTokens li) (resLeft st))
      (pushMerge CEqual (at_ rightTokens ri) (resRight st))
  else
    let maxLookAhead :=
      Nat.min 10 (Nat.max (List.length leftTokens - li)
                          (List.length rightTokens - ri)) in
    match lookAheadLoop li ri 1 maxLookAhead with
    | Some FoundLeft =>
        mkCDState (S li) ri
          (pushMerge CDelete (at_ leftTokens li) (resLeft st)) (resRight st)
    | Some FoundRight =>
        mkCDState li (S ri) (resLeft st)
          (pushMerge CInsert (at_ rightTokens ri) (resRight st))
    | None =>
        mkCDState (S li) (S ri)
          (pushMerge CDelete (at_ leftTokens li) (resLeft st))
          (pushMerge CInsert (at_ rightTokens ri) (resRight st))
    end.

Definition cdCond (st : CDState) : bool :=
  (leftIdx st <? List.length leftTokens) ||
  (rightIdx st <? List.length rightTokens).

Fixpoint cdLoop (fuel : nat) (st : CDState) : CDState :=
  if cdCond st then
    match fuel with
    | 0 => st
    | S fuel' => cdLoop fuel' (cdStep st)
    end
  else st.

(** The [leftTokens[leftIdx] === rightTokens[rightIdx]] branch. *)
Definition cdTokensMatch (st : CDState) : bool :=
  (leftIdx st <? List.length leftTokens) &&
  (rightIdx st <? List.length rightTokens) &&
  String.eqb (at_ leftTokens (leftIdx st)) (at_ rightTokens (rightIdx st)).

(** The index pairs [(leftIdx, rightIdx)] at which the loop takes the
    "Tokens match" branch, in the order the loop visits them. *)
Fixpoint cdMatches (fuel : nat) (st : CDState) : list (nat * nat) :=
  if cdCond st then
    match fuel with
    | 0 => []
    | S fuel' =>
        (if cdTokensMatch st then [(leftIdx st, rightIdx st)] else []) ++
        cdMatches fuel' (cdStep st)
    end
  else [].

Definition cdInit : CDState := mkCDState 0 0 [] [].
Definition cdFuel : nat := List.length leftTokens + List.length rightTokens.

End CharDiffLoop.

(** [computeCharDiff(left, right)], returning [(result.left, result.right)]. *)
Definition computeCharDiff (left right : string) : list CharDiff * list CharDiff :=
  let leftTokens := tokenize left in
  let rightTokens := tokenize right in
  let fin := cdLoop leftTokens rightTokens (cdFuel leftTokens rightTokens)
               (cdInit) in
  (resLeft fin, resRight fin).

(** The token pairs [computeCharDiff(left, right)] treats as equal. *)
Definition charDiffMatches (left right : string) : list (nat * nat) :=
  let leftTokens := tokenize left in
  let rightTokens := tokenize right in
  cdMatches leftTokens rightTokens (cdFuel leftTokens rightTokens) (cdInit).

(** ** enhanceWithCharDiffs *)

(** The callback of [diffLines.map]: [line.type === "modify" &&
    line.leftLine && line.rightLine] (a JS string is truthy when
    non-empty), then [{ ...line, leftCharDiffs, rightCharDiffs }]. *)
Definition enhanceLine (line : DiffLine) : DiffLine :=
  match type line, leftLine line, rightLine line with
  | Modify, Some l, Some r =>
      if negb (String.eqb l EmptyString) && negb (String.eqb r EmptyString) then
        let charDiff := computeCharDiff l r in
        mkDiffLine (type line) (leftLine line) (rightLine line)
          (leftLineNumber line) (rightLineNumber line)
          (Some (fst charDiff)) (Some (snd charDiff))
      else line
  | _, _, _ => line
  end.

Definition enhanceWithCharDiffs (diffLines : list DiffLine) : list DiffLine :=
  map enhanceLine diffLines.

(** ** Specification predicates *)

(** The [(leftLineNumber, leftLine)] of every record that carries a left
    line number, in output order (and the same for the right side). *)
Definition leftEntries (recs : list DiffLine) : list (nat * option string) :=
  flat_map (fun d => match leftLineNumber d with
                     | Some k => [(k, leftLine d)]
                     | None => []
                     end) recs.
Definition rightEntries (recs : list DiffLine) : list (nat * option string) :=
  flat_map (fun d => match rightLineNumber d with
                     | Some k => [(k, rightLine d)]
                     | None => []
                     end) recs.

(** The first [k] lines of a side, each with its 1-based line number:
    [(1, lines[0]), ..., (k, lines[k-1])]. *)
Definition sideCover (lines : list string) (k : nat) : list (nat * option string) :=
  map (fun i => (S i, Some (at_ lines i))) (seq 0 k).

(** Number of records carrying a left (right) line number. *)
Definition countLeft (recs : list DiffLine) : nat :=
  List.length (filter (fun d => match leftLineNumber d with Some _ => true | None => false end) recs).
Definition countRight (recs : list DiffLine) : nat :=
  List.length (filter (fun d => match rightLineNumber d with Some _ => true | None => false end) recs).

(** A line number is absent exactly when the text of that side is. *)
Definition numbersMatchTexts (d : DiffLine) : Prop :=
  (leftLineNumber d = None <-> leftLine d = None) /\
  (rightLineNumber d = None <-> rightLine d = None).

(** Shape of the records pushed by [computeDiff]. *)
Definition wellShaped (d : DiffLine) : Prop :=
  numbersMatchTexts d /\
  leftCharDiffs d = None /\ rightCharDiffs d = None /\
  (type d = Equal -> leftLine d = rightLine d) /\
  (type d = Modify -> leftLine d <> rightLine d /\
                      leftLine d <> None /\ rightLine d <> None).

(** Invariant of the main loop of [computeDiff]. *)
Definition diffInv (leftLines rightLines : list string) (st : LoopState) : Prop :=
  leftIndex st <= List.length leftLines /\
  rightIndex st <= List.length rightLines /\
  leftLineNum st = S (leftIndex st) /\
  rightLineNum st = S (rightIndex st) /\
  leftEntries (result st) = sideCover leftLines (leftIndex st) /\
  rightEntries (result st) = sideCover rightLines (rightIndex st) /\
  Forall wellShaped (result st).

(** Lines still to be consumed by the main loop. *)
Definition diffMeasure (leftLines rightLines : list string) (st : LoopState) : nat :=
  (List.length leftLines - leftIndex st) + (List.length rightLines - rightIndex st).

(** [spans.map((c) => c.text).join("")] *)
Definition concatTexts (xs : list CharDiff) : string :=
  fold_right (fun c acc => (text c ++ acc)%string) EmptyString xs.

(** [tokens.join("")] *)
Definition concatStr (xs : list string) : string :=
  fold_right (fun t acc => (t ++ acc)%string) EmptyString xs.

(** No two consecutive spans share a kind. *)
Fixpoint noAdjSame (xs : list CharDiff) : Prop :=
  match xs with
  | x :: ((y :: _) as t) => char_type x <> char_type y /\ noAdjSame t
  | _ => True
  end.

Definition optNoAdjSame (o : option (list CharDiff)) : Prop :=
  match o with Some xs => noAdjSame xs | None => True end.

(** Invariant of the loop of [computeCharDiff]: each side's spans spell
    the tokens consumed so far, with no two adjacent spans of one kind. *)
Definition cdInv (leftTokens rightTokens : list string) (st : CDState) : Prop :=
  leftIdx st <= List.length leftTokens /\
  rightIdx st <= List.length rightTokens /\
  concatTexts (resLeft st) = concatStr (firstn (leftIdx st) leftTokens) /\
  concatTexts (resRight st) = concatStr (firstn (rightIdx st) rightTokens) /\
  noAdjSame (resLeft st) /\ noAdjSame (resRight st).

Definition cdMeasure (leftTokens rightTokens : list string) (st : CDState) : nat :=
  (List.length leftTokens - leftIdx st) + (List.length rightTokens - rightIdx st).

(** Index pairs strictly increasing in both coordinates. *)
Fixpoint strictlyIncreasing (ps : list (nat * nat)) : Prop :=
  match ps with
  | p :: ((q :: _) as t) => fst p < fst q /\ snd p < snd q /\ strictlyIncreasing t
  | _ => True
  end.

(** A common subsequence of [A] and [B], given by its index pairs. *)
Definition isCommonSubseq (A B : list string) (ps : list (nat * nat)) : Prop :=
  strictlyIncreasing ps /\
  Forall (fun p => fst p < List.length A /\ snd p < List.length B /\
                   at_ A (fst p) = at_ B (snd p)) ps.

(** A longest common subsequence. *)
Definition isLCS (A B : list string) (ps : list (nat * nat)) : Prop :=
  isCommonSubseq A B ps /\
  forall qs, isCommonSubseq A B qs -> List.length qs <= List.length ps.

(** The spans of a record spell its texts; an absent span field counts as
    nothing, so it matches only an absent text. *)
Definition spansReconstruct (d : DiffLine) : Prop :=
  option_map concatTexts (leftCharDiffs d) = leftLine d /\
  option_map concatTexts (rightCharDiffs d) = rightLine d.

(** A text field that is present and non-empty (truthy in JS). *)
Definition nonEmptyText (o : option string) : Prop :=
  exists s, o = Some s /\ s <> EmptyString.

(** [d'] is [d] with (possibly) different span fields. *)
Definition sameExceptSpans (d d' : DiffLine) : Prop :=
  type d' = type d /\ leftLine d' = leftLine d /\ rightLine d' = rightLine d /\
  leftLineNumber d' = leftLineNumber d /\ rightLineNumber d' = rightLineNumber d.

Definition gainsSpans (d d' : DiffLine) : Prop :=
  sameExceptSpans d d' /\
  exists ls rs, leftCharDiffs d' = Some ls /\ rightCharDiffs d' = Some rs.

(** What the spec says [enhanceWithCharDiffs] does to one record: a
    non-[modify] record is unchanged, a [modify] record gains both span
    fields. *)
Definition enhancedAsClaimed (d d' : DiffLine) : Prop :=
  (type d <> Modify -> d' = d) /\ (type d = Modify -> gainsSpans d d').

(** What the code does: the gate [line.type === "modify" && line.leftLine
    && line.rightLine] decides between gaining spans and passing through. *)
Definition enhancedByDesign (d d' : DiffLine) : Prop :=
  (type d = Modify /\ nonEmptyText (leftLine d) /\ nonEmptyText (rightLine d) ->
     gainsSpans d d') /\
  (~ (type d = Modify /\ nonEmptyText (leftLine d) /\ nonEmptyText (rightLine d)) ->
     d' = d).

(** ** Line kinds and statistics of the diff editor *)

Definition LineType_eqb (a b : LineType) : bool :=
  match a, b with
  | Equal, Equal | Insert, Insert | Delete, Delete | Modify, Modify => true
  | _, _ => false
  end.

(** A JS number used as a condition: [undefined] and [0] are falsy. *)
Definition truthyNum (o : option nat) : bool :=
  match o with Some n => negb (n =? 0) | None => false end.

(** The [diffStats] object of the [DiffEditor] component. *)
Record DiffStats : Type := mkDiffStats {
  added : nat;
  removed : nat;
  modified : nat;
  totalLines : nat
}.

Definition diffStats (diffLines : list DiffLine) : DiffStats :=
  mkDiffStats
    (List.length (filter (fun l => LineType_eqb (type l) Insert) diffLines))
    (List.length (filter (fun l => LineType_eqb (type l) Delete) diffLines))
    (List.length (filter (fun l => LineType_eqb (type l) Modify) diffLines))
    (Nat.max (List.length (filter (fun l => truthyNum (leftLineNumber l)) diffLines))
             (List.length (filter (fun l => truthyNum (rightLineNumber l)) diffLines))).

(** The [diffLines] memo of [DiffEditor]:
    [enhanceWithCharDiffs(computeDiff(left, right))]. *)
Definition editorDiffLines (left right : string) : list DiffLine :=
  enhanceWithCharDiffs (computeDiff left right).



(** ** Further specification predicates *)

(** [s] contains the character [c]; [c] occurs [countChar c s] times. *)
Definition hasChar (c : ascii) (s : string) : Prop := In c (list_ascii_of_string s).
Definition countChar (c : ascii) (s : string) : nat :=
  count_occ ascii_dec (list_ascii_of_string s) c.

(** The four object literals [computeDiff] pushes; an [equal] record
    holds one text twice, a [modify] record two different texts. *)
Definition pushedRecord (d : DiffLine) : Prop :=
  (exists s n, d = insertLine s n) \/
  (exists s n, d = deleteLine s n) \/
  (exists s ln rn, d = equalLine s s ln rn) \/
  (exists l r ln rn, l <> r /\ d = modifyLine l r ln rn).

(** The records [computeDiff] yields for a common prefix of [k] lines. *)
Definition equalRecs (lines : list string) (k : nat) : list DiffLine :=
  map (fun j => equalLine (at_ lines j) (at_ lines j) (S j) (S j)) (seq 0 k).
(** [insert] records for the lines [from .. from + k - 1] of one side. *)
Definition insertRecs (lines : list string) (from k : nat) : list DiffLine :=
  map (fun j => insertLine (at_ lines j) (S j)) (seq from k).
Definition deleteRecs (lines : list string) (from k : nat) : list DiffLine :=
  map (fun j => deleteLine (at_ lines j) (S j)) (seq from k).

(** A token that is a non-empty run of whitespace, or of non-whitespace. *)
Definition wsRun (t : string) : bool :=
  (0 <? String.length t) && forallb is_ws (list_ascii_of_string t).
Definition wordRun (t : string) : bool :=
  (0 <? String.length t) && forallb (fun c => negb (is_ws c)) (list_ascii_of_string t).

(** Every token is a run of one class, and adjacent tokens differ in class. *)
Fixpoint alternatingRuns (ts : list string) : Prop :=
  match ts with
  | [] => True
  | [t] => wsRun t = true \/ wordRun t = true
  | t :: ((u :: _) as rest) =>
      ((wsRun t = true /\ wordRun u = true) \/ (wordRun t = true /\ wsRun u = true)) /\
      alternatingRuns rest
  end.

(** The text of the [equal] spans of one side, in order. *)
Definition equalText (xs : list CharDiff) : string :=
  concatTexts (filter (fun c => CharType_eqb (char_type c) CEqual) xs).

(** The spans of one side after [i] rounds of a token list against itself. *)
Definition selfSpans (tokens : list string) (i : nat) : list CharDiff :=
  match i with
  | 0 => []
  | S _ => [mkCharDiff CEqual (concatStr (firstn i tokens))]
  end.

Definition nl : string := String LF EmptyString.
Definition crlf : string := String CR (String LF EmptyString).

Example t2 : tokenize "  hello  world " = ["  "; "hello"; "  "; "world"; " "].
Proof. vm_compute. reflexivity. Qed.
Example t3 : tokenize "" = [""].
Proof. vm_compute. reflexivity. Qed.
Example t4 : computeCharDiff "hello world" "hello brave world" =
  ([mkCharDiff CEqual "hello world"],
   [mkCharDiff CEqual "hello "; mkCharDiff CInsert "brave "; mkCharDiff CEqual "world"]).
Proof. vm_compute. reflexivity. Qed.
Example t5 : charDiffMatches "a b c" "c a b" = [(1,1); (3,3)].
Proof. vm_compute. reflexivity. Qed.
Lemma computeDiff_empty_left_line : computeDiff (nl ++ "q") ("x" ++ nl ++ "q") = [modifyLine "" "x" 1 1; equalLine "q" "q" 2 2].
Proof. vm_compute. reflexivity. Qed.

(** ** Helper lemmas *)

Lemma string_app_assoc (a b c : string) : ((a ++ b) ++ c)%string = (a ++ (b ++ c))%string.
Proof. induction a as [|x a IH]; simpl; [reflexivity | now rewrite IH]. Qed.

Lemma string_app_nil_r (a : string) : (a ++ "")%string = a.
Proof. induction a as [|x a IH]; simpl; [reflexivity | now rewrite IH]. Qed.

Lemma firstn_S_at (xs : list string) (k : nat) :
  k < List.length xs -> firstn (S k) xs = firstn k xs ++ [at_ xs k].
Proof.
  revert k; induction xs as [|x xs IH]; intros [|k] H; simpl in *; try lia.
  - reflexivity.
  - f_equal. apply IH. lia.
Qed.

Lemma sideCover_S (lines : list string) (k : nat) :
  sideCover lines (S k) = sideCover lines k ++ [(S k, Some (at_ lines k))].
Proof. unfold sideCover. now rewrite seq_S, map_app. Qed.

Lemma leftEntries_app (xs ys : list DiffLine) :
  leftEntries (xs ++ ys) = leftEntries xs ++ leftEntries ys.
Proof. apply flat_map_app. Qed.

Lemma rightEntries_app (xs ys : list DiffLine) :
  rightEntries (xs ++ ys) = rightEntries xs ++ rightEntries ys.
Proof. apply flat_map_app. Qed.

Lemma countLeft_entries (recs : list DiffLine) :
  countLeft recs = List.length (leftEntries recs).
Proof.
  induction recs as [|d recs IH]; [reflexivity|].
  unfold countLeft, leftEntries in *; simpl.
  destruct (leftLineNumber d); simpl; auto.
Qed.

Lemma countRight_entries (recs : list DiffLine) :
  countRight recs = List.length (rightEntries recs).
Proof.
  induction recs as [|d recs IH]; [reflexivity|].
  unfold countRight, rightEntries in *; simpl.
  destruct (rightLineNumber d); simpl; auto.
Qed.

Lemma sideCover_length (lines : list string) (k : nat) :
  List.length (sideCover lines k) = k.
Proof. unfold sideCover. now rewrite length_map, length_seq. Qed.

(** The [rightLineMap] lookup only returns in-range positions holding the key. *)
Lemma rightLineMap_get_spec (rightLines : list string) (line : string) (x : nat) :
  In x (rightLineMap_get rightLines line) ->
  x < List.length rightLines /\ at_ rightLines x = line.
Proof.
  unfold rightLineMap_get. rewrite filter_In, in_seq.
  intros [Hx He]. apply String.eqb_eq in He. split; [lia | exact He].
Qed.

Lemma findBestMatch_spec (P : nat -> Prop) (ri : nat) (ms : list nat) :
  forall bm bd b,
  (forall b', bm = Some b' -> P b') ->
  (forall x, In x ms -> ri <= x -> P x) ->
  findBestMatch ri ms bm bd = Some b -> P b.
Proof.
  induction ms as [|x ms IH]; intros bm bd b Hbm Hms Hb; simpl in Hb.
  - now apply Hbm.
  - destruct (Nat.leb_spec ri x) as [Hle|Hlt].
    + destruct (match bd with Some d => x - ri <? d | None => true end).
      * apply (IH (Some x) (Some (x - ri))); auto.
        -- intros b' Hb'; inversion Hb'; subst; apply Hms; simpl; auto.
        -- intros y Hy; apply Hms; simpl; auto.
      * apply (IH bm bd); auto. intros y Hy; apply Hms; simpl; auto.
    + apply (IH bm bd); auto. intros y Hy; apply Hms; simpl; auto.
Qed.

Lemma findLeftMatch_spec (leftLines : list string) (cur : string) :
  forall count i a, findLeftMatch leftLines cur i count = Some a ->
  i <= a < i + count /\ at_ leftLines a = cur.
Proof.
  induction count as [|count IH]; intros i a H; simpl in H; [discriminate|].
  destruct (String.eqb_spec (at_ leftLines i) cur) as [He|Hne].
  - inversion H; subst. split; [lia | reflexivity].
  - apply IH in H. destruct H as [Hr Ha]. split; [lia | exact Ha].
Qed.

(** ** computeDiff: the main loop keeps [diffInv] and consumes lines *)

Section DiffLoopProofs.
Variables leftLines rightLines : list string.

Lemma wellShaped_insert (s : string) (k : nat) : wellShaped (insertLine s k).
Proof.
  unfold wellShaped, numbersMatchTexts; simpl.
  repeat split; intros; discriminate.
Qed.

Lemma wellShaped_delete (s : string) (k : nat) : wellShaped (deleteLine s k).
Proof.
  unfold wellShaped, numbersMatchTexts; simpl.
  repeat split; intros; discriminate.
Qed.

Lemma pushInsert_inv (st : LoopState) :
  diffInv leftLines rightLines st -> rightIndex st < List.length rightLines ->
  diffInv leftLines rightLines (pushInsert rightLines st) /\
  diffMeasure leftLines rightLines (pushInsert rightLines st) <
    diffMeasure leftLines rightLines st.
Proof.
  unfold diffInv, diffMeasure, pushInsert; simpl.
  intros (Hl & Hr & Hln & Hrn & Hle & Hre & Hsh) Hlt.
  rewrite leftEntries_app, rightEntries_app, Hle, Hre, sideCover_S, Hrn.
  simpl. rewrite app_nil_r.
  repeat split; try lia.
  apply Forall_app; split; auto using wellShaped_insert.
Qed.

Lemma pushDelete_inv (st : LoopState) :
  diffInv leftLines rightLines st -> leftIndex st < List.length leftLines ->
  diffInv leftLines rightLines (pushDelete leftLines st) /\
  diffMeasure leftLines rightLines (pushDelete leftLines st) <
    diffMeasure leftLines rightLines st.
Proof.
  unfold diffInv, diffMeasure, pushDelete; simpl.
  intros (Hl & Hr & Hln & Hrn & Hle & Hre & Hsh) Hlt.
  rewrite leftEntries_app, rightEntries_app, Hle, Hre, sideCover_S, Hln.
  simpl. rewrite app_nil_r.
  repeat split; try lia.
  apply Forall_app; split; auto using wellShaped_delete.
Qed.

Lemma insertUntil_inv (k : nat) : forall st,
  diffInv leftLines rightLines st ->
  rightIndex st + k <= List.length rightLines ->
  diffInv leftLines rightLines (insertUntil rightLines k st) /\
  leftIndex (insertUntil rightLines k st) = leftIndex st /\
  rightIndex (insertUntil rightLines k st) = rightIndex st + k.
Proof.
  induction k as [|k IH]; intros st Hinv Hk; simpl.
  - split; [exact Hinv | split; lia].
  - destruct (pushInsert_inv st Hinv) as [Hinv' _]; [lia|].
    destruct (IH (pushInsert rightLines st) Hinv') as (H1 & H2 & H3);
      simpl; [lia|].
    simpl in H2, H3. split; [exact H1 | split; lia].
Qed.

Lemma deleteUntil_inv (k : nat) : forall st,
  diffInv leftLines rightLines st ->
  leftIndex st + k <= List.length leftLines ->
  diffInv leftLines rightLines (deleteUntil leftLines k st) /\
  leftIndex (deleteUntil leftLines k st) = leftIndex st + k /\
  rightIndex (deleteUntil leftLines k st) = rightIndex st.
Proof.
  induction k as [|k IH]; intros st Hinv Hk; simpl.
  - split; [exact Hinv | split; lia].
  - destruct (pushDelete_inv st Hinv) as [Hinv' _]; [lia|].
    destruct (IH (pushDelete leftLines st) Hinv') as (H1 & H2 & H3);
      simpl; [lia|].
    simpl in H2, H3. split; [exact H1 | split; lia].
Qed.

(** The [equal] and [modify] pushes, which consume one line per side. *)
Lemma pushBoth_inv (st : LoopState) (d : DiffLine) :
  diffInv leftLines rightLines st ->
  leftIndex st < List.length leftLines ->
  rightIndex st < List.length rightLines ->
  leftEntries [d] = [(leftLineNum st, Some (at_ leftLines (leftIndex st)))] ->
  rightEntries [d] = [(rightLineNum st, Some (at_ rightLines (rightIndex st)))] ->
  wellShaped d ->
  let st' := mkLoopState (S (leftIndex st)) (S (rightIndex st))
               (S (leftLineNum st)) (S (rightLineNum st)) (result st ++ [d]) in
  diffInv leftLines rightLines st' /\
  diffMeasure leftLines rightLines st' < diffMeasure leftLines rightLines st.
Proof.
  intros Hinv Hlt Hrt Hd1 Hd2 Hd.
  unfold diffInv, diffMeasure in *.
  destruct Hinv as (Hl & Hr & Hln & Hrn & Hle & Hre & Hsh).
  cbn [result leftIndex rightIndex leftLineNum rightLineNum].
  rewrite leftEntries_app, rightEntries_app, Hle, Hre, Hd1, Hd2,
    !sideCover_S, Hln, Hrn.
  repeat split; try lia.
  apply Forall_app; split; auto.
Qed.

Lemma insertUntil_step (st : LoopState) (k : nat) :
  diffInv leftLines rightLines st -> 0 < k ->
  rightIndex st + k <= List.length rightLines ->
  diffInv leftLines rightLines (insertUntil rightLines k st) /\
  diffMeasure leftLines rightLines (insertUntil rightLines k st) <
    diffMeasure leftLines rightLines st.
Proof.
  intros Hinv Hk Hle.
  destruct (insertUntil_inv k st Hinv Hle) as (H1 & H2 & H3).
  split; [exact H1|]. unfold diffMeasure. rewrite H2, H3. lia.
Qed.

Lemma deleteUntil_step (st : LoopState) (k : nat) :
  diffInv leftLines rightLines st -> 0 < k ->
  leftIndex st + k <= List.length leftLines ->
  diffInv leftLines rightLines (deleteUntil leftLines k st) /\
  diffMeasure leftLines rightLines (deleteUntil leftLines k st) <
    diffMeasure leftLines rightLines st.
Proof.
  intros Hinv Hk Hle.
  destruct (deleteUntil_inv k st Hinv Hle) as (H1 & H2 & H3).
  split; [exact H1|]. unfold diffMeasure. rewrite H2, H3. lia.
Qed.

(** One iteration of the main loop keeps the invariant and consumes at
    least one line. *)
Lemma diffStep_inv (st : LoopState) :
  diffInv leftLines rightLines st ->
  diffCond leftLines rightLines st = true ->
  diffInv leftLines rightLines (diffStep leftLines rightLines st) /\
  diffMeasure leftLines rightLines (diffStep leftLines rightLines st) <
    diffMeasure leftLines rightLines st.
Proof.
  intros Hinv Hc.
  pose proof Hinv as (Hl & Hr & Hln & Hrn & _).
  unfold diffCond in Hc. apply orb_true_iff in Hc. rewrite !Nat.ltb_lt in Hc.
  unfold diffStep; cbv zeta.
  destruct (Nat.leb_spec (List.length leftLines) (leftIndex st)).
  { apply pushInsert_inv; auto; lia. }
  destruct (Nat.leb_spec (List.length rightLines) (rightIndex st)).
  { apply pushDelete_inv; auto. }
  destruct (String.eqb_spec (at_ leftLines (leftIndex st))
              (at_ rightLines (rightIndex st))) as [Heq|Hne].
  { apply pushBoth_inv; auto;
      first [ reflexivity
            | unfold wellShaped, numbersMatchTexts; simpl;
              repeat split; intros; try discriminate; congruence ]. }
  assert (Hbm : forall b,
    findBestMatch (rightIndex st)
      (rightLineMap_get rightLines (at_ leftLines (leftIndex st))) None None
      = Some b -> rightIndex st < b < List.length rightLines).
  { intros b Hb.
    apply (findBestMatch_spec (fun b => rightIndex st < b < List.length rightLines)
             (rightIndex st)
             (rightLineMap_get rightLines (at_ leftLines (leftIndex st)))
             None None b); auto.
    - intros b' Hb'; discriminate.
    - intros x Hx Hle. apply rightLineMap_get_spec in Hx.
      destruct Hx as [Hx Hax].
      assert (x <> rightIndex st) by (intro; subst; congruence). lia. }
  assert (Hlm : forall a,
    findLeftMatch leftLines (at_ rightLines (rightIndex st)) (S (leftIndex st))
      (Nat.min (leftIndex st + 20) (List.length leftLines) - S (leftIndex st))
      = Some a -> leftIndex st < a < List.length leftLines).
  { intros a Ha. apply findLeftMatch_spec in Ha.
    pose proof (Nat.le_min_r (leftIndex st + 20) (List.length leftLines)). lia. }
  destruct (findBestMatch (rightIndex st)
      (rightLineMap_get rightLines (at_ leftLines (leftIndex st))) None None)
    as [b|]; [specialize (Hbm b eq_refl)|clear Hbm];
  (destruct (findLeftMatch leftLines (at_ rightLines (rightIndex st)) (S (leftIndex st))
      (Nat.min (leftIndex st + 20) (List.length leftLines) - S (leftIndex st)))
    as [a|]; [specialize (Hlm a eq_refl)|clear Hlm]);
  unfold opt_test, is_none, opt_get; simpl;
  repeat match goal with |- context [if ?c then _ else _] => destruct c eqn:? end;
  first
    [ apply pushInsert_inv; auto; lia
    | apply pushDelete_inv; auto; lia
    | apply insertUntil_step; auto; lia
    | apply deleteUntil_step; auto; lia
    | apply pushBoth_inv; auto;
      first [ reflexivity
            | unfold wellShaped, numbersMatchTexts; simpl;
              repeat split; intros; try discriminate; congruence ] ].
Qed.

(** The fuel-bounded driver leaves the loop through its condition when
    the fuel covers the lines still to be consumed. *)
Lemma diffLoop_inv (fuel : nat) : forall st,
  diffInv leftLines rightLines st ->
  diffMeasure leftLines rightLines st <= fuel ->
  diffInv leftLines rightLines (diffLoop leftLines rightLines fuel st) /\
  diffCond leftLines rightLines (diffLoop leftLines rightLines fuel st) = false.
Proof.
  induction fuel as [|fuel IH]; intros st Hinv Hm; simpl.
  - destruct (diffCond leftLines rightLines st) eqn:Hc; [|auto].
    exfalso. unfold diffCond, diffMeasure, diffInv in *.
    apply orb_true_iff in Hc. rewrite !Nat.ltb_lt in Hc. lia.
  - destruct (diffCond leftLines rightLines st) eqn:Hc; [|auto].
    destruct (diffStep_inv st Hinv Hc) as [H1 H2].
    apply IH; auto; lia.
Qed.

Lemma diffInit_inv : diffInv leftLines rightLines diffInit.
Proof.
  unfold diffInv, diffInit; simpl. repeat split; auto; lia.
Qed.

(** The result of the whole loop. *)
Lemma diffLoop_final :
  let fin := diffLoop leftLines rightLines (diffFuel leftLines rightLines) diffInit in
  diffInv leftLines rightLines fin /\ diffCond leftLines rightLines fin = false /\
  leftIndex fin = List.length leftLines /\ rightIndex fin = List.length rightLines.
Proof.
  cbv zeta.
  destruct (diffLoop_inv (diffFuel leftLines rightLines) diffInit diffInit_inv)
    as [H1 H2].
  { unfold diffMeasure, diffFuel; simpl. lia. }
  split; [exact H1|]. split; [exact H2|].
  unfold diffCond, diffInv in *. apply orb_false_iff in H2.
  rewrite !Nat.ltb_ge in H2. lia.
Qed.

End DiffLoopProofs.

Lemma sideCover_numbers (lines : list string) (k : nat) :
  map fst (sideCover lines k) = seq 1 k.
Proof. unfold sideCover. rewrite map_map. simpl. apply seq_shift. Qed.

(** The final loop state of [computeDiff left right]. *)
Lemma computeDiff_final (left right : string) :
  let leftLines := splitLines (normalizeNewlines left) in
  let rightLines := splitLines (normalizeNewlines right) in
  leftEntries (computeDiff left right) = sideCover leftLines (List.length leftLines) /\
  rightEntries (computeDiff left right) = sideCover rightLines (List.length rightLines) /\
  Forall wellShaped (computeDiff left right).
Proof.
  cbv zeta. unfold computeDiff. cbv zeta.
  destruct (diffLoop_final (splitLines (normalizeNewlines left))
              (splitLines (normalizeNewlines right)))
    as (Hinv & _ & Hli & Hri).
  unfold diffInv in Hinv. rewrite Hli, Hri in Hinv.
  destruct Hinv as (_ & _ & _ & _ & H1 & H2 & H3). auto.
Qed.

(** Claim C1.  [computeDiff left right] covers both inputs totally and in
    order: the number of records carrying a left line number is the
    number of left lines (after newline normalisation and splitting), and
    likewise on the right; the records carrying a left line number, in
    output order, hold exactly the pairs (1, line 1), ..., (n, line n) of
    the left input, so their left line numbers are 1..n in increasing
    order and every left line appears in exactly one record (symmetrically
    for right); and a record has a line number on a side exactly when it
    has a text on that side. *)
Theorem computeDiff_total_coverage (left right : string) :
  let leftLines := splitLines (normalizeNewlines left) in
  let rightLines := splitLines (normalizeNewlines right) in
  let recs := computeDiff left right in
  countLeft recs = List.length leftLines /\
  countRight recs = List.length rightLines /\
  map fst (leftEntries recs) = seq 1 (List.length leftLines) /\
  map fst (rightEntries recs) = seq 1 (List.length rightLines) /\
  leftEntries recs = sideCover leftLines (List.length leftLines) /\
  rightEntries recs = sideCover rightLines (List.length rightLines) /\
  Forall numbersMatchTexts recs.
Proof.
  cbv zeta.
  destruct (computeDiff_final left right) as (H1 & H2 & H3). cbv zeta in H1, H2.
  rewrite countLeft_entries, countRight_entries, H1, H2, !sideCover_length,
    !sideCover_numbers.
  repeat split; auto.
  eapply Forall_impl; [|exact H3]. intros d Hd. apply Hd.
Qed.

(** Claim C10.  In every record produced by [computeDiff], an [equal]
    record has [leftLine] equal to [rightLine], and a [modify] record has
    [leftLine] different from [rightLine]. *)
Theorem computeDiff_equal_modify_texts (left right : string) :
  Forall (fun d => (type d = Equal -> leftLine d = rightLine d) /\
                   (type d = Modify -> leftLine d <> rightLine d))
    (computeDiff left right).
Proof.
  destruct (computeDiff_final left right) as (_ & _ & H).
  eapply Forall_impl; [|exact H].
  intros d (_ & _ & _ & He & Hm). split; [exact He|].
  intros Ht. apply (Hm Ht).
Qed.

(** ** computeCharDiff: spans spell the tokens, adjacent kinds differ *)

Lemma pushMerge_cons2 (k : CharType) (tok : string) (x y : CharDiff) (t : list CharDiff) :
  pushMerge k tok (x :: y :: t) = x :: pushMerge k tok (y :: t).
Proof. reflexivity. Qed.

Lemma CharType_eqb_spec (a b : CharType) : CharType_eqb a b = true <-> a = b.
Proof. destruct a, b; simpl; split; intros; congruence. Qed.

Lemma pushMerge_concat (k : CharType) (tok : string) (xs : list CharDiff) :
  concatTexts (pushMerge k tok xs) = (concatTexts xs ++ tok)%string.
Proof.
  induction xs as [|x xs IH].
  - simpl. apply string_app_nil_r.
  - destruct xs as [|y t].
    + simpl. destruct (CharType_eqb (char_type x) k); simpl;
        rewrite ?string_app_nil_r; reflexivity.
    + rewrite pushMerge_cons2. unfold concatTexts in *. cbn [fold_right] in *.
      rewrite IH. symmetry. apply string_app_assoc.
Qed.

Lemma pushMerge_head (k : CharType) (tok : string) (y : CharDiff) (t : list CharDiff) :
  exists y' t', pushMerge k tok (y :: t) = y' :: t' /\ char_type y' = char_type y.
Proof.
  destruct t as [|z t].
  - simpl. destruct (CharType_eqb (char_type y) k); eauto.
  - rewrite pushMerge_cons2. eauto.
Qed.

Lemma pushMerge_noAdjSame (k : CharType) (tok : string) (xs : list CharDiff) :
  noAdjSame xs -> noAdjSame (pushMerge k tok xs).
Proof.
  induction xs as [|x xs IH]; intros H.
  - simpl. exact I.
  - destruct xs as [|y t].
    + simpl. destruct (CharType_eqb (char_type x) k) eqn:E; simpl; [exact I|].
      split; [|exact I]. intros Heq. rewrite Heq in E.
      destruct k; discriminate.
    + rewrite pushMerge_cons2. destruct H as [Hxy Ht].
      destruct (pushMerge_head k tok y t) as (y' & t' & E & Hty).
      specialize (IH Ht). rewrite E in IH |- *.
      split; [rewrite Hty; exact Hxy | exact IH].
Qed.

Lemma concatStr_snoc (xs : list string) (x : string) :
  concatStr (xs ++ [x]) = (concatStr xs ++ x)%string.
Proof.
  induction xs as [|y xs IH]; simpl.
  - apply string_app_nil_r.
  - rewrite IH. symmetry. apply string_app_assoc.
Qed.

Lemma concatStr_app (xs ys : list string) :
  concatStr (xs ++ ys) = (concatStr xs ++ concatStr ys)%string.
Proof.
  induction xs as [|y xs IH]; simpl; [reflexivity|].
  rewrite IH. symmetry. apply string_app_assoc.
Qed.

Lemma strictlyIncreasing_cons (p : nat * nat) (t : list (nat * nat)) :
  strictlyIncreasing t ->
  Forall (fun q => fst p < fst q /\ snd p < snd q) t ->
  strictlyIncreasing (p :: t).
Proof.
  intros Ht Hf. destruct t as [|q t]; simpl; [exact I|].
  inversion Hf as [|? ? [H1 H2] _]; subst. auto.
Qed.

Section CharDiffProofs.
Variables leftTokens rightTokens : list string.

(** Consuming one left token into the left spans. *)
Lemma advance_left (st : CDState) (k : CharType) :
  cdInv leftTokens rightTokens st -> leftIdx st < List.length leftTokens ->
  let st' := mkCDState (S (leftIdx st)) (rightIdx st)
               (pushMerge k (at_ leftTokens (leftIdx st)) (resLeft st)) (resRight st) in
  cdInv leftTokens rightTokens st' /\
  cdMeasure leftTokens rightTokens st' < cdMeasure leftTokens rightTokens st.
Proof.
  intros (H1 & H2 & H3 & H4 & H5 & H6) Hlt. cbv zeta. unfold cdInv, cdMeasure.
  cbn [leftIdx rightIdx resLeft resRight].
  rewrite pushMerge_concat, H3, firstn_S_at, concatStr_snoc by exact Hlt.
  repeat split; auto using pushMerge_noAdjSame; lia.
Qed.

Lemma advance_right (st : CDState) (k : CharType) :
  cdInv leftTokens rightTokens st -> rightIdx st < List.length rightTokens ->
  let st' := mkCDState (leftIdx st) (S (rightIdx st)) (resLeft st)
               (pushMerge k (at_ rightTokens (rightIdx st)) (resRight st)) in
  cdInv leftTokens rightTokens st' /\
  cdMeasure leftTokens rightTokens st' < cdMeasure leftTokens rightTokens st.
Proof.
  intros (H1 & H2 & H3 & H4 & H5 & H6) Hlt. cbv zeta. unfold cdInv, cdMeasure.
  cbn [leftIdx rightIdx resLeft resRight].
  rewrite pushMerge_concat, H4, firstn_S_at, concatStr_snoc by exact Hlt.
  repeat split; auto using pushMerge_noAdjSame; lia.
Qed.

Lemma advance_both (st : CDState) (kl kr : CharType) :
  cdInv leftTokens rightTokens st -> leftIdx st < List.length leftTokens ->
  rightIdx st < List.length rightTokens ->
  let st' := mkCDState (S (leftIdx st)) (S (rightIdx st))
               (pushMerge kl (at_ leftTokens (leftIdx st)) (resLeft st))
               (pushMerge kr (at_ rightTokens (rightIdx st)) (resRight st)) in
  cdInv leftTokens rightTokens st' /\
  cdMeasure leftTokens rightTokens st' < cdMeasure leftTokens rightTokens st.
Proof.
  intros (H1 & H2 & H3 & H4 & H5 & H6) Hlt Hrt. cbv zeta. unfold cdInv, cdMeasure.
  cbn [leftIdx rightIdx resLeft resRight].
  rewrite !pushMerge_concat, H3, H4, !firstn_S_at, !concatStr_snoc by assumption.
  repeat split; auto using pushMerge_noAdjSame; lia.
Qed.

(** One iteration of the [computeCharDiff] loop keeps [cdInv] and
    consumes at least one token. *)
Lemma cdStep_inv (st : CDState) :
  cdInv leftTokens rightTokens st -> cdCond leftTokens rightTokens st = true ->
  cdInv leftTokens rightTokens (cdStep leftTokens rightTokens st) /\
  cdMeasure leftTokens rightTokens (cdStep leftTokens rightTokens st) <
    cdMeasure leftTokens rightTokens st.
Proof.
  intros Hinv Hc. pose proof Hinv as (Hl & Hr & _).
  unfold cdCond in Hc. apply orb_true_iff in Hc. rewrite !Nat.ltb_lt in Hc.
  unfold cdStep; cbv zeta.
  destruct (Nat.leb_spec (List.length leftTokens) (leftIdx st)).
  { exact (advance_right st CInsert Hinv ltac:(lia)). }
  destruct (Nat.leb_spec (List.length rightTokens) (rightIdx st)).
  { exact (advance_left st CDelete Hinv ltac:(lia)). }
  destruct (String.eqb (at_ leftTokens (leftIdx st)) (at_ rightTokens (rightIdx st))).
  { exact (advance_both st CEqual CEqual Hinv ltac:(lia) ltac:(lia)). }
  destruct (lookAheadLoop leftTokens rightTokens (leftIdx st) (rightIdx st) 1
              (Nat.min 10 (Nat.max (List.length leftTokens - leftIdx st)
                                   (List.length rightTokens - rightIdx st))))
    as [[|]|].
  - exact (advance_left st CDelete Hinv ltac:(lia)).
  - exact (advance_right st CInsert Hinv ltac:(lia)).
  - exact (advance_both st CDelete CInsert Hinv ltac:(lia) ltac:(lia)).
Qed.

Lemma cdLoop_inv (fuel : nat) : forall st,
  cdInv leftTokens rightTokens st ->
  cdMeasure leftTokens rightTokens st <= fuel ->
  cdInv leftTokens rightTokens (cdLoop leftTokens rightTokens fuel st) /\
  cdCond leftTokens rightTokens (cdLoop leftTokens rightTokens fuel st) = false.
Proof.
  induction fuel as [|fuel IH]; intros st Hinv Hm; simpl.
  - destruct (cdCond leftTokens rightTokens st) eqn:Hc; [|auto].
    exfalso. unfold cdCond, cdMeasure, cdInv in *.
    apply orb_true_iff in Hc. rewrite !Nat.ltb_lt in Hc. lia.
  - destruct (cdCond leftTokens rightTokens st) eqn:Hc; [|auto].
    destruct (cdStep_inv st Hinv Hc) as [H1 H2].
    apply IH; auto; lia.
Qed.

Lemma cdLoop_final :
  let fin := cdLoop leftTokens rightTokens (cdFuel leftTokens rightTokens) cdInit in
  cdInv leftTokens rightTokens fin /\ cdCond leftTokens rightTokens fin = false /\
  leftIdx fin = List.length leftTokens /\ rightIdx fin = List.length rightTokens.
Proof.
  cbv zeta.
  destruct (cdLoop_inv (cdFuel leftTokens rightTokens) cdInit) as [H1 H2].
  { unfold cdInv, cdInit; simpl. repeat split; auto; lia. }
  { unfold cdMeasure, cdFuel; simpl. lia. }
  split; [exact H1|]. split; [exact H2|].
  unfold cdCond, cdInv in *. apply orb_false_iff in H2.
  rewrite !Nat.ltb_ge in H2. lia.
Qed.

(** The loop never moves an index backwards. *)
Lemma cdStep_mono (st : CDState) :
  leftIdx st <= leftIdx (cdStep leftTokens rightTokens st) /\
  rightIdx st <= rightIdx (cdStep leftTokens rightTokens st).
Proof.
  unfold cdStep; cbv zeta.
  destruct (List.length leftTokens <=? leftIdx st); [simpl; lia|].
  destruct (List.length rightTokens <=? rightIdx st); [simpl; lia|].
  destruct (String.eqb (at_ leftTokens (leftIdx st)) (at_ rightTokens (rightIdx st)));
    [simpl; lia|].
  destruct (lookAheadLoop leftTokens rightTokens (leftIdx st) (rightIdx st) 1
              (Nat.min 10 (Nat.max (List.length leftTokens - leftIdx st)
                                   (List.length rightTokens - rightIdx st))))
    as [[|]|]; simpl; lia.
Qed.

(** The "Tokens match" branch moves both indices by one. *)
Lemma cdStep_match (st : CDState) :
  cdTokensMatch leftTokens rightTokens st = true ->
  leftIdx (cdStep leftTokens rightTokens st) = S (leftIdx st) /\
  rightIdx (cdStep leftTokens rightTokens st) = S (rightIdx st).
Proof.
  unfold cdTokensMatch, cdStep; cbv zeta.
  intros H. apply andb_true_iff in H. destruct H as [H He].
  apply andb_true_iff in H. destruct H as [Hl Hr].
  rewrite Nat.ltb_lt in Hl, Hr. rewrite He.
  destruct (Nat.leb_spec (List.length leftTokens) (leftIdx st)); [lia|].
  destruct (Nat.leb_spec (List.length rightTokens) (rightIdx st)); [lia|].
  simpl. split; reflexivity.
Qed.

Lemma cdMatches_common (fuel : nat) : forall st,
  Forall (fun p => leftIdx st <= fst p /\ rightIdx st <= snd p)
    (cdMatches leftTokens rightTokens fuel st) /\
  isCommonSubseq leftTokens rightTokens (cdMatches leftTokens rightTokens fuel st).
Proof.
  unfold isCommonSubseq.
  induction fuel as [|fuel IH]; intros st; simpl.
  - destruct (cdCond leftTokens rightTokens st); simpl; auto.
  - destruct (cdCond leftTokens rightTokens st); [|simpl; auto].
    destruct (IH (cdStep leftTokens rightTokens st)) as (Hge & Hinc & Hval).
    destruct (cdStep_mono st) as [Ml Mr].
    destruct (cdTokensMatch leftTokens rightTokens st) eqn:Htm; simpl.
    + destruct (cdStep_match st Htm) as [El Er].
      rewrite El, Er in Hge.
      pose proof Htm as Htm'.
      unfold cdTokensMatch in Htm'. apply andb_true_iff in Htm'.
      destruct Htm' as [H He]. apply andb_true_iff in H. destruct H as [Hl Hr].
      rewrite Nat.ltb_lt in Hl, Hr. apply String.eqb_eq in He.
      split; [|split].
      * constructor; [simpl; lia|].
        eapply Forall_impl; [|exact Hge]. simpl. intros p Hp. lia.
      * refine (strictlyIncreasing_cons (leftIdx st, rightIdx st) _ Hinc _).
        eapply Forall_impl; [|exact Hge]. simpl. intros p Hp. lia.
      * constructor; [simpl; auto|exact Hval].
    + split; [|split; assumption].
      eapply Forall_impl; [|exact Hge]. simpl. intros p Hp. lia.
Qed.

End CharDiffProofs.

(** ** Tokenizer: the tokens spell the line *)

Lemma concatStr_nil : concatStr [] = EmptyString.
Proof. reflexivity. Qed.

Lemma concatStr_cons (x : string) (xs : list string) :
  concatStr (x :: xs) = (x ++ concatStr xs)%string.
Proof. reflexivity. Qed.

Lemma span_ws_app (s : string) : forall w r, span_ws s = (w, r) -> (w ++ r)%string = s.
Proof.
  induction s as [|c s IH]; intros w r H; simpl in H.
  - inversion H; reflexivity.
  - destruct (is_ws c).
    + destruct (span_ws s) as [w' r'] eqn:E. inversion H; subst.
      simpl. f_equal. apply IH. reflexivity.
    + inversion H; reflexivity.
Qed.

Lemma span_word_app (s : string) : forall w r, span_word s = (w, r) -> (w ++ r)%string = s.
Proof.
  induction s as [|c s IH]; intros w r H; simpl in H.
  - inversion H; reflexivity.
  - destruct (is_ws c).
    + inversion H; reflexivity.
    + destruct (span_word s) as [w' r'] eqn:E. inversion H; subst.
      simpl. f_equal. apply IH. reflexivity.
Qed.

Lemma length_zero_empty (s : string) : String.length s = 0 -> s = EmptyString.
Proof. destruct s; simpl; [reflexivity | discriminate]. Qed.

Lemma tokenizeLoop_concat (fuel : nat) : forall rest,
  concatStr (tokenizeLoop fuel rest) = rest.
Proof.
  induction fuel as [|fuel IH]; intros rest; simpl;
    destruct (span_ws rest) as [ws after] eqn:E; apply span_ws_app in E;
    destruct after as [|c a].
  - destruct (Nat.ltb_spec 0 (String.length rest)).
    + rewrite concatStr_cons, concatStr_nil. apply string_app_nil_r.
    + symmetry. apply length_zero_empty. lia.
  - rewrite concatStr_cons, concatStr_nil. apply string_app_nil_r.
  - destruct (Nat.ltb_spec 0 (String.length rest)).
    + rewrite concatStr_cons, concatStr_nil. apply string_app_nil_r.
    + symmetry. apply length_zero_empty. lia.
  - destruct (span_word (String c a)) as [word rest'] eqn:E2.
    apply span_word_app in E2.
    rewrite concatStr_app, concatStr_cons, IH, E2.
    destruct (Nat.ltb_spec 0 (String.length ws)).
    + rewrite concatStr_cons, concatStr_nil, string_app_nil_r. exact E.
    + rewrite (length_zero_empty ws) in E by lia. rewrite concatStr_nil. exact E.
Qed.

Lemma tokenize_concat (t : string) : concatStr (tokenize t) = t.
Proof.
  unfold tokenize.
  destruct (tokenizeLoop (String.length t) t) as [|x xs] eqn:E.
  - rewrite concatStr_cons, concatStr_nil. apply string_app_nil_r.
  - rewrite <- E. apply tokenizeLoop_concat.
Qed.

(** The spans of [computeCharDiff l r] spell [l] and [r], and neither
    side has two adjacent spans of one kind. *)
Lemma computeCharDiff_spans (l r : string) :
  concatTexts (fst (computeCharDiff l r)) = l /\
  concatTexts (snd (computeCharDiff l r)) = r /\
  noAdjSame (fst (computeCharDiff l r)) /\
  noAdjSame (snd (computeCharDiff l r)).
Proof.
  unfold computeCharDiff; cbv zeta; simpl fst; simpl snd.
  destruct (cdLoop_final (tokenize l) (tokenize r)) as (Hinv & _ & Hl & Hr).
  unfold cdInv in Hinv. rewrite Hl, Hr, !firstn_all, !tokenize_concat in Hinv.
  destruct Hinv as (_ & _ & H1 & H2 & H3 & H4). auto.
Qed.

(** ** Index progress of [computeDiff] *)

Lemma insertUntil_idx (rightLines : list string) (k : nat) : forall st,
  leftIndex (insertUntil rightLines k st) = leftIndex st /\
  rightIndex (insertUntil rightLines k st) = rightIndex st + k.
Proof.
  induction k as [|k IH]; intros st; simpl; [lia|].
  destruct (IH (pushInsert rightLines st)) as [H1 H2]. simpl in *. lia.
Qed.

Lemma deleteUntil_idx (leftLines : list string) (k : nat) : forall st,
  leftIndex (deleteUntil leftLines k st) = leftIndex st + k /\
  rightIndex (deleteUntil leftLines k st) = rightIndex st.
Proof.
  induction k as [|k IH]; intros st; simpl; [lia|].
  destruct (IH (pushDelete leftLines st)) as [H1 H2]. simpl in *. lia.
Qed.

Lemma diffStep_mono (leftLines rightLines : list string) (st : LoopState) :
  leftIndex st <= leftIndex (diffStep leftLines rightLines st) /\
  rightIndex st <= rightIndex (diffStep leftLines rightLines st).
Proof.
  unfold diffStep; cbv zeta.
  repeat match goal with |- context [if ?c then _ else _] => destruct c end;
    simpl; try lia;
    match goal with
    | |- context [insertUntil ?R ?k ?st] => destruct (insertUntil_idx R k st); lia
    | |- context [deleteUntil ?L ?k ?st] => destruct (deleteUntil_idx L k st); lia
    end.
Qed.

(** An iteration that keeps the invariant and shrinks the measure, without
    moving back, moves at least one index forward. *)
Lemma diffStep_advances (leftLines rightLines : list string) (st : LoopState) :
  diffInv leftLines rightLines st -> diffCond leftLines rightLines st = true ->
  leftIndex st + rightIndex st <
    leftIndex (diffStep leftLines rightLines st) +
    rightIndex (diffStep leftLines rightLines st).
Proof.
  intros Hinv Hc.
  destruct (diffStep_inv leftLines rightLines st Hinv Hc) as [Hinv' Hm].
  destruct Hinv as (Hl & Hr & _). destruct Hinv' as (Hl' & Hr' & _).
  unfold diffMeasure in Hm. lia.
Qed.

Lemma cdStep_advances (leftTokens rightTokens : list string) (st : CDState) :
  cdInv leftTokens rightTokens st -> cdCond leftTokens rightTokens st = true ->
  leftIdx st + rightIdx st <
    leftIdx (cdStep leftTokens rightTokens st) +
    rightIdx (cdStep leftTokens rightTokens st).
Proof.
  intros Hinv Hc.
  destruct (cdStep_inv leftTokens rightTokens st Hinv Hc) as [Hinv' Hm].
  destruct Hinv as (Hl & Hr & _). destruct Hinv' as (Hl' & Hr' & _).
  unfold cdMeasure in Hm. lia.
Qed.

(** ** Enhancer *)

Lemma enhanceLine_spec (d : DiffLine) : enhancedByDesign d (enhanceLine d).
Proof.
  unfold enhancedByDesign, gainsSpans, sameExceptSpans, nonEmptyText, enhanceLine.
  destruct d as [ty ll rl ln rn lc rc]; simpl.
  assert (Hpass : ~ (ty = Modify /\ (exists s, ll = Some s /\ s <> EmptyString) /\
                     (exists s, rl = Some s /\ s <> EmptyString)) ->
          (ty = Modify /\ (exists s, ll = Some s /\ s <> EmptyString) /\
                     (exists s, rl = Some s /\ s <> EmptyString) -> False))
    by auto.
  destruct ty; try (split; [intros (H & _); discriminate | reflexivity]).
  destruct ll as [l|];
    [|split; [intros (_ & (s & Hs & _) & _); discriminate | reflexivity]].
  destruct rl as [r|];
    [|split; [intros (_ & _ & (s & Hs & _)); discriminate | reflexivity]].
  destruct (String.eqb_spec l EmptyString) as [->|Hl];
    [split; [intros (_ & (s & Hs & Hne) & _); injection Hs; congruence
            | reflexivity]|].
  destruct (String.eqb_spec r EmptyString) as [->|Hr];
    [split; [intros (_ & _ & (s & Hs & Hne)); injection Hs; congruence
            | reflexivity]|].
  simpl. split.
  - intros _. repeat split; eauto.
  - intros H. exfalso. apply H. split; [reflexivity | split; eauto].
Qed.

(** ** Concrete runs *)

Lemma enhance_empty_left_line :
  enhanceWithCharDiffs [modifyLine "" "x" 1 1; equalLine "q" "q" 2 2] =
  [modifyLine "" "x" 1 1; equalLine "q" "q" 2 2].
Proof. vm_compute. reflexivity. Qed.

Lemma computeDiff_swapped_words :
  computeDiff "a b c" "c a b" = [modifyLine "a b c" "c a b" 1 1].
Proof. vm_compute. reflexivity. Qed.

(** ** Claims *)

(** Claim C2, as stated.  Counterexample: [computeDiff "\nq" "x\nq"]
    yields a [modify] record pairing the empty left line with ["x"]; the
    enhancer's gate skips it (an empty string is falsy), so it carries no
    [rightCharDiffs] although its [rightLine] is ["x"]. *)
Lemma enhance_spans_reconstruct_counterexample :
  ~ (forall left right,
       Forall (fun d => type d = Modify -> spansReconstruct d)
         (enhanceWithCharDiffs (computeDiff left right))).
Proof.
  intros H. specialize (H (nl ++ "q")%string ("x" ++ nl ++ "q")%string).
  rewrite computeDiff_empty_left_line, enhance_empty_left_line in H.
  inversion H as [|d ds Hd _]; subst.
  destruct (Hd eq_refl) as [_ Hr]. simpl in Hr. discriminate.
Qed.

(** Claim C2, amended.  For every [modify] record of
    [enhanceWithCharDiffs (computeDiff left right)] whose [leftLine] and
    [rightLine] are both non-empty, the texts of [leftCharDiffs] join to
    [leftLine] and those of [rightCharDiffs] join to [rightLine]; a
    [modify] record with an empty side carries no span fields. *)
Theorem enhance_spans_reconstruct (left right : string) :
  Forall (fun d => type d = Modify ->
            (nonEmptyText (leftLine d) /\ nonEmptyText (rightLine d) ->
               spansReconstruct d) /\
            (leftLine d = Some EmptyString \/ rightLine d = Some EmptyString ->
               leftCharDiffs d = None /\ rightCharDiffs d = None))
    (enhanceWithCharDiffs (computeDiff left right)).
Proof.
  unfold enhanceWithCharDiffs. apply Forall_map.
  destruct (computeDiff_final left right) as (_ & _ & Hsh).
  eapply Forall_impl; [|exact Hsh].
  intros d (_ & Hlc & Hrc & _ & Hm).
  destruct (enhanceLine_spec d) as [Hgain Hpass].
  destruct (type d) eqn:Ht;
    try (rewrite Hpass by (intros (H & _); discriminate); rewrite Ht;
         intros H; discriminate).
  intros _. destruct (Hm eq_refl) as (_ & Hl & Hr).
  destruct (leftLine d) as [l|] eqn:El; [|congruence].
  destruct (rightLine d) as [r|] eqn:Er; [|congruence].
  destruct (String.eqb_spec l EmptyString) as [Hl0|Hl0].
  { rewrite Hpass by (intros (_ & (s & Hs & Hne) & _); injection Hs; congruence).
    rewrite El. split; [intros ((s & Hs & Hne) & _); injection Hs; congruence|].
    intros _. auto. }
  destruct (String.eqb_spec r EmptyString) as [Hr0|Hr0].
  { rewrite Hpass by (intros (_ & _ & (s & Hs & Hne)); injection Hs; congruence).
    rewrite El, Er. split; [intros (_ & (s & Hs & Hne)); injection Hs; congruence|].
    intros _. auto. }
  split.
  - intros _. unfold enhanceLine. rewrite Ht, El, Er.
    destruct (String.eqb_spec l EmptyString); [congruence|].
    destruct (String.eqb_spec r EmptyString); [congruence|].
    unfold spansReconstruct.
    cbn [negb andb leftCharDiffs rightCharDiffs leftLine rightLine option_map].
    destruct (computeCharDiff_spans l r) as (H1 & H2 & _).
    rewrite H1, H2. auto.
  - destruct (Hgain (conj eq_refl (conj (ex_intro _ l (conj eq_refl Hl0))
                                     (ex_intro _ r (conj eq_refl Hr0)))))
      as ((_ & E1 & E2 & _) & _).
    rewrite E1, E2, El, Er. intros [H|H]; injection H; congruence.
Qed.

(** Claim C3, as stated.  Counterexample: [computeDiff "a b c" "c a b"]
    yields one [modify] record; its tokens are [a, " ", b, " ", c] and
    [c, " ", a, " ", b].  The look-ahead loop matches only the two spaces
    (pairs (1,1) and (3,3)), while (0,2), (1,3), (2,4) is a common
    subsequence of length 3, so the matched pairs are not a longest one. *)
Lemma charDiff_lcs_counterexample :
  computeDiff "a b c" "c a b" = [modifyLine "a b c" "c a b" 1 1] /\
  charDiffMatches "a b c" "c a b" = [(1, 1); (3, 3)] /\
  isCommonSubseq (tokenize "a b c") (tokenize "c a b") [(0, 2); (1, 3); (2, 4)] /\
  ~ isLCS (tokenize "a b c") (tokenize "c a b") (charDiffMatches "a b c" "c a b").
Proof.
  assert (Hc : isCommonSubseq (tokenize "a b c") (tokenize "c a b")
                 [(0, 2); (1, 3); (2, 4)]).
  { unfold isCommonSubseq. vm_compute.
    split; [repeat split; lia|].
    repeat constructor; lia. }
  split; [exact computeDiff_swapped_words|].
  split; [vm_compute; reflexivity|].
  split; [exact Hc|].
  intros [_ Hmax]. specialize (Hmax _ Hc). vm_compute in Hmax. lia.
Qed.

(** Claim C3, amended.  The token pairs [computeCharDiff left right]
    treats as equal (its "Tokens match" branch) form a common subsequence
    of the two token sequences: index pairs strictly increasing on both
    sides, in range, with equal tokens at every pair.  It need not be a
    longest one: the look-ahead is greedy and bounded by 10 tokens. *)
Theorem charDiff_matches_common (left right : string) :
  isCommonSubseq (tokenize left) (tokenize right) (charDiffMatches left right).
Proof.
  unfold charDiffMatches. cbv zeta.
  apply cdMatches_common.
Qed.

(** Claim C4.  Both loops are total: for every pair of input strings
    (empty ones included) the main loop of [computeDiff] and the loop of
    [computeCharDiff] leave through their own condition within their
    bound of [length + length] iterations (both indices at the end of
    their arrays), and every iteration of either loop run from a
    reachable state moves neither index back and at least one forward.
    The model has no error outcome, as the source has no [throw]. *)
Theorem diff_loops_terminate (left right l r : string) :
  let leftLines := splitLines (normalizeNewlines left) in
  let rightLines := splitLines (normalizeNewlines right) in
  let fin := diffLoop leftLines rightLines (diffFuel leftLines rightLines) diffInit in
  let cfin := cdLoop (tokenize l) (tokenize r) (cdFuel (tokenize l) (tokenize r)) cdInit in
  diffCond leftLines rightLines fin = false /\
  leftIndex fin = List.length leftLines /\ rightIndex fin = List.length rightLines /\
  cdCond (tokenize l) (tokenize r) cfin = false /\
  leftIdx cfin = List.length (tokenize l) /\ rightIdx cfin = List.length (tokenize r) /\
  (forall st, diffInv leftLines rightLines st ->
     diffCond leftLines rightLines st = true ->
     leftIndex st <= leftIndex (diffStep leftLines rightLines st) /\
     rightIndex st <= rightIndex (diffStep leftLines rightLines st) /\
     leftIndex st + rightIndex st <
       leftIndex (diffStep leftLines rightLines st) +
       rightIndex (diffStep leftLines rightLines st)) /\
  (forall st, cdInv (tokenize l) (tokenize r) st ->
     cdCond (tokenize l) (tokenize r) st = true ->
     leftIdx st <= leftIdx (cdStep (tokenize l) (tokenize r) st) /\
     rightIdx st <= rightIdx (cdStep (tokenize l) (tokenize r) st) /\
     leftIdx st + rightIdx st <
       leftIdx (cdStep (tokenize l) (tokenize r) st) +
       rightIdx (cdStep (tokenize l) (tokenize r) st)).
Proof.
  cbv zeta.
  destruct (diffLoop_final (splitLines (normalizeNewlines left))
              (splitLines (normalizeNewlines right))) as (_ & H1 & H2 & H3).
  destruct (cdLoop_final (tokenize l) (tokenize r)) as (_ & H4 & H5 & H6).
  refine (conj H1 (conj H2 (conj H3 (conj H4 (conj H5 (conj H6 (conj _ _))))))).
  - intros st Hinv Hc.
    destruct (diffStep_mono (splitLines (normalizeNewlines left))
                (splitLines (normalizeNewlines right)) st) as [M1 M2].
    split; [exact M1 | split; [exact M2 | apply diffStep_advances; auto]].
  - intros st Hinv Hc.
    destruct (cdStep_mono (tokenize l) (tokenize r) st) as [M1 M2].
    split; [exact M1 | split; [exact M2 | apply cdStep_advances; auto]].
Qed.

(** Claim C4 at a concrete input: on ["a"] against ["b"] the first
    iteration of the main loop, from the initial state, moves forward. *)
Lemma diff_loops_terminate_witness :
  diffCond (splitLines (normalizeNewlines "a")) (splitLines (normalizeNewlines "b"))
    diffInit = true /\
  leftIndex diffInit + rightIndex diffInit <
    leftIndex (diffStep (splitLines (normalizeNewlines "a"))
                 (splitLines (normalizeNewlines "b")) diffInit) +
    rightIndex (diffStep (splitLines (normalizeNewlines "a"))
                  (splitLines (normalizeNewlines "b")) diffInit).
Proof.
  destruct (diff_loops_terminate "a" "b" "x" "y")
    as (_ & _ & _ & _ & _ & _ & Hd & _).
  split; [vm_compute; reflexivity|].
  exact (proj2 (proj2 (Hd diffInit (diffInit_inv _ _) eq_refl))).
Defined.

(** Claim C5, as stated.  Counterexample: the records of
    [computeDiff "\nq" "x\nq"] start with a [modify] record whose
    [leftLine] is empty; [enhanceWithCharDiffs] returns it unchanged,
    without span fields. *)
Lemma enhance_frame_counterexample :
  ~ (forall recs, Forall2 enhancedAsClaimed recs (enhanceWithCharDiffs recs)).
Proof.
  intros H. specialize (H (computeDiff (nl ++ "q")%string ("x" ++ nl ++ "q")%string)).
  rewrite computeDiff_empty_left_line, enhance_empty_left_line in H.
  inversion H as [|d d' ds ds' Hd _]; subst.
  destruct Hd as [_ Hm]. destruct (Hm eq_refl) as [_ (ls & rs & Hls & _)].
  discriminate.
Qed.

(** Claim C5, amended.  [enhanceWithCharDiffs] returns a sequence of the
    same length and order as its input; a record of kind [modify] whose
    [leftLine] and [rightLine] are both present and non-empty gains
    [leftCharDiffs] and [rightCharDiffs] with all its other fields
    unchanged, and every other record (a non-[modify] record, or a
    [modify] record with an empty or missing side) is returned unchanged. *)
Theorem enhance_frame (recs : list DiffLine) :
  List.length (enhanceWithCharDiffs recs) = List.length recs /\
  Forall2 enhancedByDesign recs (enhanceWithCharDiffs recs).
Proof.
  unfold enhanceWithCharDiffs. split; [apply length_map|].
  induction recs as [|d recs IH]; simpl; constructor; auto.
  apply enhanceLine_spec.
Qed.

(** Claim C6.  No span sequence produced by the enhancer has two
    consecutive spans of the same kind: this holds for both sides of
    [computeCharDiff l r] for all strings, and hence for the span fields
    of every record of [enhanceWithCharDiffs (computeDiff l r)]. *)
Theorem charDiff_no_adjacent_same (l r : string) :
  noAdjSame (fst (computeCharDiff l r)) /\
  noAdjSame (snd (computeCharDiff l r)) /\
  Forall (fun d => optNoAdjSame (leftCharDiffs d) /\ optNoAdjSame (rightCharDiffs d))
    (enhanceWithCharDiffs (computeDiff l r)).
Proof.
  destruct (computeCharDiff_spans l r) as (_ & _ & H1 & H2).
  split; [exact H1|]. split; [exact H2|].
  unfold enhanceWithCharDiffs. apply Forall_map.
  destruct (computeDiff_final l r) as (_ & _ & Hsh).
  eapply Forall_impl; [|exact Hsh].
  intros d (_ & Hlc & Hrc & _).
  destruct (enhanceLine_spec d) as [Hgain Hpass].
  unfold enhanceLine.
  destruct (type d); try (rewrite Hlc, Hrc; simpl; auto).
  destruct (leftLine d) as [l'|]; [|rewrite Hlc, Hrc; simpl; auto].
  destruct (rightLine d) as [r'|]; [|rewrite Hlc, Hrc; simpl; auto].
  destruct (negb (String.eqb l' EmptyString) && negb (String.eqb r' EmptyString));
    [|rewrite Hlc, Hrc; simpl; auto].
  simpl. destruct (computeCharDiff_spans l' r') as (_ & _ & H3 & H4). auto.
Qed.

(** Claim C7.  [computeDiff "a\r\nb\r\nc\r\n" "a\nb\nc\n"] yields only
    [equal] records, the last one pairing the trailing empty lines. *)
Theorem computeDiff_crlf_normalized :
  computeDiff ("a" ++ crlf ++ "b" ++ crlf ++ "c" ++ crlf) ("a" ++ nl ++ "b" ++ nl ++ "c" ++ nl)
  = [equalLine "a" "a" 1 1; equalLine "b" "b" 2 2; equalLine "c" "c" 3 3;
     equalLine "" "" 4 4].
Proof. vm_compute. reflexivity. Qed.

(** Claim C8.  An empty input has zero lines: [computeDiff "" "a\nb"] is
    exactly an [insert] of ["a"] (right line 1) and an [insert] of ["b"]
    (right line 2). *)
Theorem computeDiff_empty_left :
  computeDiff "" ("a" ++ nl ++ "b") = [insertLine "a" 1; insertLine "b" 2].
Proof. vm_compute. reflexivity. Qed.

(** Claim C9.  [computeDiff "a\nb\nc" "a\nB\nc"] is exactly
    [equal(a)], [modify(b -> B)], [equal(c)]. *)
Theorem computeDiff_single_char_modify :
  computeDiff ("a" ++ nl ++ "b" ++ nl ++ "c") ("a" ++ nl ++ "B" ++ nl ++ "c")
  = [equalLine "a" "a" 1 1; modifyLine "b" "B" 2 2; equalLine "c" "c" 3 3].
Proof. vm_compute. reflexivity. Qed.


Lemma normalizeNewlines_len_ind (P : string -> Prop) :
  (forall s, (forall t, String.length t < String.length s -> P t) -> P s) ->
  forall s, P s.
Proof.
  intros H s. remember (String.length s) as n eqn:E.
  revert s E. induction n as [n IH] using lt_wf_ind. intros s E.
  apply H. intros t Ht. apply (IH (String.length t)); [lia | reflexivity].
Qed.

Lemma normalizeNewlines_no_CR_aux (s : string) :
  ~ hasChar CR (normalizeNewlines s).
Proof.
  induction s as [s IH] using normalizeNewlines_len_ind.
  destruct s as [|c rest]; [simpl; auto|].
  unfold hasChar. cbn [normalizeNewlines].
  destruct (Ascii.eqb_spec c CR) as [Hc|Hc].
  - destruct rest as [|c2 rest2].
    + simpl. intros [H|H]; [discriminate|exact H].
    + destruct (Ascii.eqb_spec c2 LF).
      * simpl. intros [H|H]; [discriminate|].
        apply (IH rest2); [simpl; lia | exact H].
      * simpl. intros [H|H]; [discriminate|].
        apply (IH (String c2 rest2)); [simpl; lia | exact H].
  - simpl. intros [H|H]; [congruence|].
    apply (IH rest); [simpl; lia | exact H].
Qed.

Lemma normalizeNewlines_fix (s : string) :
  ~ hasChar CR s -> normalizeNewlines s = s.
Proof.
  unfold hasChar. induction s as [|c rest IH]; intros H; [reflexivity|].
  simpl in H. cbn [normalizeNewlines].
  destruct (Ascii.eqb_spec c CR) as [Hc|Hc]; [exfalso; auto|].
  rewrite IH; auto.
Qed.

Lemma normalizeNewlines_idem (s : string) :
  normalizeNewlines (normalizeNewlines s) = normalizeNewlines s.
Proof. apply normalizeNewlines_fix, normalizeNewlines_no_CR_aux. Qed.

Lemma concat_nl_cons (c : ascii) (h : string) (t : list string) :
  String.concat nl (String c h :: t) = String c (String.concat nl (h :: t)).
Proof. destruct t; reflexivity. Qed.

Lemma split_nl_cons (s : string) : exists h t, split_nl s = h :: t.
Proof.
  destruct s as [|c rest]; simpl; [eauto|].
  destruct (Ascii.eqb c LF); [eauto|].
  destruct (split_nl rest); eauto.
Qed.

Lemma split_nl_join (s : string) : String.concat nl (split_nl s) = s.
Proof.
  induction s as [|c rest IH]; [reflexivity|].
  cbn [split_nl]. destruct (Ascii.eqb_spec c LF) as [->|Hc].
  - destruct (split_nl_cons rest) as (h & t & E).
    change (String.concat nl (EmptyString :: split_nl rest))
      with (match split_nl rest with [] => EmptyString
            | _ => (EmptyString ++ nl ++ String.concat nl (split_nl rest))%string end).
    rewrite E. rewrite <- E, IH. reflexivity.
  - destruct (split_nl_cons rest) as (h & t & E). rewrite E in IH |- *.
    rewrite concat_nl_cons, IH. reflexivity.
Qed.

Lemma split_nl_pieces (s : string) :
  Forall (fun l => ~ hasChar LF l) (split_nl s) /\
  List.length (split_nl s) = S (countChar LF s).
Proof.
  unfold hasChar, countChar.
  induction s as [|c rest [IH1 IH2]]; simpl.
  - split; [constructor; simpl; auto | reflexivity].
  - destruct (Ascii.eqb_spec c LF) as [->|Hc].
    + destruct (ascii_dec LF LF) as [_|]; [|congruence].
      split; [constructor; [simpl; auto | exact IH1] | simpl; lia].
    + destruct (ascii_dec c LF) as [|_]; [congruence|].
      destruct (split_nl rest) as [|h t]; [discriminate|].
      inversion IH1 as [|? ? Hh Ht]; subst.
      split; [constructor; [simpl; intros [H|H]; auto | exact Ht] | exact IH2].
Qed.

(** ** computeDiff on inputs with a common prefix *)

Lemma insertRecs_S (lines : list string) (from k : nat) :
  insertRecs lines from (S k) = insertLine (at_ lines from) (S from) :: insertRecs lines (S from) k.
Proof. reflexivity. Qed.

Lemma deleteRecs_S (lines : list string) (from k : nat) :
  deleteRecs lines from (S k) = deleteLine (at_ lines from) (S from) :: deleteRecs lines (S from) k.
Proof. reflexivity. Qed.

Lemma equalRecs_S (lines : list string) (k : nat) :
  equalRecs lines (S k) = equalRecs lines k ++ [equalLine (at_ lines k) (at_ lines k) (S k) (S k)].
Proof. unfold equalRecs. now rewrite seq_S, map_app. Qed.

(** Once the left side is used up, the loop pushes an [insert] for every
    remaining right line. *)
Lemma diffLoop_inserts (LL RR : list string) (fuel : nat) : forall st,
  List.length LL <= leftIndex st ->
  rightLineNum st = S (rightIndex st) ->
  List.length RR - rightIndex st <= fuel ->
  result (diffLoop LL RR fuel st) =
    result st ++ insertRecs RR (rightIndex st) (List.length RR - rightIndex st).
Proof.
  induction fuel as [|fuel IH]; intros st Hl Hn Hf; simpl;
    unfold diffCond; destruct (Nat.ltb_spec (leftIndex st) (List.length LL)); try lia;
    destruct (Nat.ltb_spec (rightIndex st) (List.length RR)); simpl;
    try (replace (List.length RR - rightIndex st) with 0 by lia;
         symmetry; apply app_nil_r); try lia.
  unfold diffStep. destruct (Nat.leb_spec (List.length LL) (leftIndex st)); [|lia].
  rewrite IH; unfold pushInsert; simpl; try lia.
  replace (List.length RR - rightIndex st) with (S (List.length RR - S (rightIndex st))) by lia.
  rewrite insertRecs_S, Hn, <- app_assoc. reflexivity.
Qed.

(** Once the right side is used up, the loop pushes a [delete] for every
    remaining left line. *)
Lemma diffLoop_deletes (LL RR : list string) (fuel : nat) : forall st,
  List.length RR <= rightIndex st ->
  leftLineNum st = S (leftIndex st) ->
  List.length LL - leftIndex st <= fuel ->
  result (diffLoop LL RR fuel st) =
    result st ++ deleteRecs LL (leftIndex st) (List.length LL - leftIndex st).
Proof.
  induction fuel as [|fuel IH]; intros st Hr Hn Hf; simpl;
    unfold diffCond; destruct (Nat.ltb_spec (rightIndex st) (List.length RR)); try lia;
    destruct (Nat.ltb_spec (leftIndex st) (List.length LL)); simpl;
    rewrite ?orb_false_r; simpl;
    try (replace (List.length LL - leftIndex st) with 0 by lia;
         symmetry; apply app_nil_r); try lia.
  unfold diffStep. destruct (Nat.leb_spec (List.length LL) (leftIndex st)); [lia|].
  destruct (Nat.leb_spec (List.length RR) (rightIndex st)); [|lia].
  rewrite IH; unfold pushDelete; simpl; try lia.
  replace (List.length LL - leftIndex st) with (S (List.length LL - S (leftIndex st))) by lia.
  rewrite deleteRecs_S, Hn, <- app_assoc. reflexivity.
Qed.

(** Over a common prefix of [p] lines, every iteration pushes an [equal]
    record. *)
Lemma diffLoop_common (LL RR : list string) (p : nat) :
  p <= List.length LL -> p <= List.length RR ->
  (forall j, j < p -> at_ LL j = at_ RR j) ->
  forall k fuel i, i + k = p -> k <= fuel ->
  diffLoop LL RR fuel (mkLoopState i i (S i) (S i) (equalRecs LL i)) =
  diffLoop LL RR (fuel - k) (mkLoopState p p (S p) (S p) (equalRecs LL p)).
Proof.
  intros HL HR Heq k. induction k as [|k IH]; intros fuel i Hi Hf.
  - replace i with p by lia. now rewrite Nat.sub_0_r.
  - destruct fuel as [|fuel]; [lia|].
    cbn [diffLoop]. unfold diffCond at 1; cbn [leftIndex].
    destruct (Nat.ltb_spec i (List.length LL)); [|lia]. simpl orb.
    replace (diffStep LL RR (mkLoopState i i (S i) (S i) (equalRecs LL i)))
      with (mkLoopState (S i) (S i) (S (S i)) (S (S i)) (equalRecs LL (S i))).
    + rewrite (IH fuel (S i)) by lia. reflexivity.
    + unfold diffStep; cbn [leftIndex rightIndex leftLineNum rightLineNum result].
      destruct (Nat.leb_spec (List.length LL) i); [lia|].
      destruct (Nat.leb_spec (List.length RR) i); [lia|].
      rewrite <- (Heq i) by lia. rewrite String.eqb_refl.
      now rewrite equalRecs_S.
Qed.

Lemma equalRecs_ext (A B : list string) (k : nat) :
  (forall j, j < k -> at_ A j = at_ B j) -> equalRecs A k = equalRecs B k.
Proof.
  intros H. unfold equalRecs. apply map_ext_in. intros j Hj.
  apply in_seq in Hj. rewrite H by lia. reflexivity.
Qed.

Lemma at_app_l (A X : list string) (j : nat) : j < List.length A -> at_ (A ++ X) j = at_ A j.
Proof. intros H. unfold at_. apply app_nth1, H. Qed.

(** [computeDiff] when the right lines extend the left lines. *)
Lemma computeDiff_prefix_loop (LL X : list string) :
  result (diffLoop LL (LL ++ X) (diffFuel LL (LL ++ X)) diffInit) =
    equalRecs LL (List.length LL) ++
    insertRecs (LL ++ X) (List.length LL) (List.length X).
Proof.
  unfold diffFuel, diffInit.
  change (mkLoopState 0 0 1 1 []) with (mkLoopState 0 0 (S 0) (S 0) (equalRecs LL 0)).
  rewrite (diffLoop_common LL (LL ++ X) (List.length LL)) with (k := List.length LL);
    rewrite ?length_app; try lia.
  - rewrite diffLoop_inserts; cbn [result leftIndex rightIndex rightLineNum];
      rewrite ?length_app; try lia.
    now replace (List.length LL + List.length X - List.length LL) with (List.length X) by lia.
  - intros j Hj. symmetry. apply at_app_l, Hj.
Qed.

(** [computeDiff] when the left lines extend the right lines. *)
Lemma computeDiff_prefix_loop_del (RR X : list string) :
  result (diffLoop (RR ++ X) RR (diffFuel (RR ++ X) RR) diffInit) =
    equalRecs RR (List.length RR) ++
    deleteRecs (RR ++ X) (List.length RR) (List.length X).
Proof.
  unfold diffFuel, diffInit.
  change (mkLoopState 0 0 1 1 []) with (mkLoopState 0 0 (S 0) (S 0) (equalRecs (RR ++ X) 0)).
  rewrite (diffLoop_common (RR ++ X) RR (List.length RR)) with (k := List.length RR);
    rewrite ?length_app; try lia.
  - rewrite diffLoop_deletes; cbn [result leftIndex rightIndex leftLineNum];
      rewrite ?length_app; try lia.
    rewrite (equalRecs_ext (RR ++ X) RR) by (intros j Hj; apply at_app_l, Hj).
    now replace (List.length RR + List.length X - List.length RR) with (List.length X) by lia.
  - intros j Hj. apply at_app_l, Hj.
Qed.

(** ** computeDiff pushes only its four record literals *)

Lemma pushInsert_pushed (RR : list string) (st : LoopState) :
  Forall pushedRecord (result st) -> Forall pushedRecord (result (pushInsert RR st)).
Proof.
  intros H. simpl. apply Forall_app. split; [exact H|].
  constructor; [left; eauto | constructor].
Qed.

Lemma pushDelete_pushed (LL : list string) (st : LoopState) :
  Forall pushedRecord (result st) -> Forall pushedRecord (result (pushDelete LL st)).
Proof.
  intros H. simpl. apply Forall_app. split; [exact H|].
  constructor; [right; left; eauto | constructor].
Qed.

Lemma insertUntil_pushed (RR : list string) (k : nat) : forall st,
  Forall pushedRecord (result st) -> Forall pushedRecord (result (insertUntil RR k st)).
Proof.
  induction k as [|k IH]; intros st H; simpl; auto using pushInsert_pushed.
Qed.

Lemma deleteUntil_pushed (LL : list string) (k : nat) : forall st,
  Forall pushedRecord (result st) -> Forall pushedRecord (result (deleteUntil LL k st)).
Proof.
  induction k as [|k IH]; intros st H; simpl; auto using pushDelete_pushed.
Qed.

Lemma diffStep_pushed (LL RR : list string) (st : LoopState) :
  Forall pushedRecord (result st) -> Forall pushedRecord (result (diffStep LL RR st)).
Proof.
  intros H. unfold diffStep; cbv zeta.
  destruct (List.length LL <=? leftIndex st); [apply pushInsert_pushed, H|].
  destruct (List.length RR <=? rightIndex st); [apply pushDelete_pushed, H|].
  destruct (String.eqb_spec (at_ LL (leftIndex st)) (at_ RR (rightIndex st)))
    as [Heq|Hne].
  { simpl. apply Forall_app. split; [exact H|].
    constructor; [|constructor]. right; right; left. rewrite Heq. eauto. }
  repeat match goal with |- context [if ?c then _ else _] => destruct c end;
  first [ apply pushInsert_pushed, H | apply pushDelete_pushed, H
        | apply insertUntil_pushed, H | apply deleteUntil_pushed, H
        | simpl; apply Forall_app; split; [exact H|];
          constructor; [|constructor]; right; right; right;
          exists (at_ LL (leftIndex st)), (at_ RR (rightIndex st)); eauto ].
Qed.

Lemma diffLoop_pushed (LL RR : list string) (fuel : nat) : forall st,
  Forall pushedRecord (result st) -> Forall pushedRecord (result (diffLoop LL RR fuel st)).
Proof.
  induction fuel as [|fuel IH]; intros st H; simpl;
    destruct (diffCond LL RR st); auto using diffStep_pushed.
Qed.

Lemma computeDiff_pushed (left right : string) :
  Forall pushedRecord (computeDiff left right).
Proof. unfold computeDiff; cbv zeta. apply diffLoop_pushed. constructor. Qed.

(** ** Statistics of the diff editor *)
Lemma enhanceLine_keeps (d : DiffLine) :
  type (enhanceLine d) = type d /\
  leftLineNumber (enhanceLine d) = leftLineNumber d /\
  rightLineNumber (enhanceLine d) = rightLineNumber d.
Proof.
  destruct d as [ty ll rl ln rn lc rc]. unfold enhanceLine; simpl.
  destruct ty, ll, rl; simpl; auto.
  destruct (negb (String.eqb s EmptyString) && negb (String.eqb s0 EmptyString)); simpl; auto.
Qed.

Lemma count_map_keep (f : DiffLine -> DiffLine) (g : DiffLine -> bool) (recs : list DiffLine) :
  (forall d, g (f d) = g d) ->
  List.length (filter g (map f recs)) = List.length (filter g recs).
Proof.
  intros H. induction recs as [|d recs IH]; simpl; [reflexivity|].
  rewrite H. destruct (g d); simpl; auto.
Qed.

Lemma diffStats_enhance (recs : list DiffLine) :
  diffStats (enhanceWithCharDiffs recs) = diffStats recs.
Proof.
  unfold diffStats, enhanceWithCharDiffs.
  rewrite !count_map_keep; [reflexivity|..]; intros d;
    destruct (enhanceLine_keeps d) as (E1 & E2 & E3); congruence.
Qed.

Lemma stats_counts (recs : list DiffLine) :
  Forall pushedRecord recs ->
  added (diffStats recs) + countLeft recs = removed (diffStats recs) + countRight recs /\
  removed (diffStats recs) + modified (diffStats recs) <= countLeft recs /\
  added (diffStats recs) + modified (diffStats recs) <= countRight recs.
Proof.
  unfold diffStats, countLeft, countRight; cbn [added removed modified].
  induction recs as [|d recs IH]; intros H; [simpl; lia|].
  inversion H as [|? ? Hd Hrs]; subst. specialize (IH Hrs).
  destruct Hd as [(s & n & ->)|[(s & n & ->)|[(s & ln & rn & ->)|(l & r & ln & rn & _ & ->)]]];
    simpl; lia.
Qed.

Lemma count_truthy_left (recs : list DiffLine) :
  ~ In 0 (map fst (leftEntries recs)) ->
  List.length (filter (fun l => truthyNum (leftLineNumber l)) recs) = countLeft recs.
Proof.
  unfold countLeft. induction recs as [|d recs IH]; intros H; [reflexivity|].
  unfold leftEntries in H. cbn [flat_map] in H. fold (leftEntries recs) in H.
  simpl. destruct (leftLineNumber d) as [k|]; simpl in *.
  - destruct k as [|k]; [exfalso; auto|]. simpl. rewrite IH; auto.
  - apply IH, H.
Qed.

Lemma count_truthy_right (recs : list DiffLine) :
  ~ In 0 (map fst (rightEntries recs)) ->
  List.length (filter (fun l => truthyNum (rightLineNumber l)) recs) = countRight recs.
Proof.
  unfold countRight. induction recs as [|d recs IH]; intros H; [reflexivity|].
  unfold rightEntries in H. cbn [flat_map] in H. fold (rightEntries recs) in H.
  simpl. destruct (rightLineNumber d) as [k|]; simpl in *.
  - destruct k as [|k]; [exfalso; auto|]. simpl. rewrite IH; auto.
  - apply IH, H.
Qed.

Lemma sideCover_no_zero (lines : list string) (k : nat) :
  ~ In 0 (map fst (sideCover lines k)).
Proof. rewrite sideCover_numbers. intros H. apply in_seq in H. lia. Qed.

(** ** computeCharDiff: kinds, equal text and span texts *)

Lemma cdLoop_preserve (LT RT : list string) (I : CDState -> Prop) :
  (forall st, I st -> cdCond LT RT st = true -> I (cdStep LT RT st)) ->
  forall fuel st, I st -> I (cdLoop LT RT fuel st).
Proof.
  intros Hstep fuel. induction fuel as [|fuel IH]; intros st H; simpl;
    destruct (cdCond LT RT st) eqn:Hc; auto.
Qed.

Lemma pushMerge_Forall (P : CharDiff -> Prop) (k : CharType) (tok : string)
    (xs : list CharDiff) :
  Forall P xs -> P (mkCharDiff k tok) ->
  (forall x, P x -> char_type x = k -> P (mkCharDiff (char_type x) (text x ++ tok))) ->
  Forall P (pushMerge k tok xs).
Proof.
  intros H Hnew Hmerge. induction xs as [|x xs IH]; [simpl; auto|].
  inversion H as [|? ? Hx Hxs]; subst.
  destruct xs as [|y t].
  - simpl. destruct (CharType_eqb (char_type x) k) eqn:E.
    + apply CharType_eqb_spec in E. constructor; auto.
    + constructor; auto.
  - rewrite pushMerge_cons2. constructor; auto.
Qed.

Lemma equalText_pushMerge (k : CharType) (tok : string) (xs : list CharDiff) :
  equalText (pushMerge k tok xs) =
    (equalText xs ++ (if CharType_eqb k CEqual then tok else EmptyString))%string.
Proof.
  unfold equalText. induction xs as [|x xs IH].
  - destruct k; simpl; rewrite ?string_app_nil_r; reflexivity.
  - destruct xs as [|y t].
    + destruct x as [kx tx]. simpl.
      destruct kx, k; simpl; rewrite ?string_app_nil_r, ?string_app_assoc; reflexivity.
    + rewrite pushMerge_cons2. set (ys := y :: t) in *. clearbody ys.
      cbn [filter]. destruct (CharType_eqb (char_type x) CEqual); [|exact IH].
      change (concatTexts (x :: ?l)) with (text x ++ concatTexts l)%string.
      rewrite IH, string_app_assoc. reflexivity.
Qed.

(** Case split on the branches of one iteration of [computeCharDiff]. *)
Ltac cd_branches :=
  unfold cdStep; cbv zeta;
  repeat match goal with
  | |- context [if ?c then _ else _] => destruct c eqn:?
  | |- context [match ?m with Some _ => _ | None => _ end] => destruct m as [[|]|] eqn:?
  end; cbn [resLeft resRight leftIdx rightIdx].

Lemma cdStep_kinds (LT RT : list string) (st : CDState) :
  Forall (fun c => char_type c <> CInsert) (resLeft st) /\
  Forall (fun c => char_type c <> CDelete) (resRight st) ->
  Forall (fun c => char_type c <> CInsert) (resLeft (cdStep LT RT st)) /\
  Forall (fun c => char_type c <> CDelete) (resRight (cdStep LT RT st)).
Proof.
  intros [Hl Hr].
  cd_branches; split; auto;
    apply pushMerge_Forall; auto; simpl; try discriminate; intros x Hx Hk; exact Hx.
Qed.

Lemma cdStep_equalText (LT RT : list string) (st : CDState) :
  equalText (resLeft st) = equalText (resRight st) ->
  equalText (resLeft (cdStep LT RT st)) = equalText (resRight (cdStep LT RT st)).
Proof.
  intros H.
  cd_branches; rewrite ?equalText_pushMerge; simpl; rewrite ?string_app_nil_r; auto.
  match goal with E : String.eqb _ _ = true |- _ => apply String.eqb_eq in E; rewrite E end.
  now rewrite H.
Qed.

(** ** Tokenizer: tokens are maximal runs *)

Lemma span_ws_spec (s : string) : forall w r, span_ws s = (w, r) ->
  forallb is_ws (list_ascii_of_string w) = true /\
  (r = EmptyString \/ exists c r', r = String c r' /\ is_ws c = false).
Proof.
  induction s as [|c s IH]; intros w r H; simpl in H.
  - inversion H; subst. simpl. auto.
  - destruct (is_ws c) eqn:Hc.
    + destruct (span_ws s) as [w' r'] eqn:E. inversion H; subst.
      destruct (IH w' r eq_refl) as [H1 H2]. simpl. rewrite Hc, H1. auto.
    + inversion H; subst. simpl. split; [reflexivity | right; eauto].
Qed.

Lemma span_word_spec (s : string) : forall w r, span_word s = (w, r) ->
  forallb (fun c => negb (is_ws c)) (list_ascii_of_string w) = true /\
  (r = EmptyString \/ exists c r', r = String c r' /\ is_ws c = true).
Proof.
  induction s as [|c s IH]; intros w r H; simpl in H.
  - inversion H; subst. simpl. auto.
  - destruct (is_ws c) eqn:Hc.
    + inversion H; subst. simpl. split; [reflexivity | right; eauto].
    + destruct (span_word s) as [w' r'] eqn:E. inversion H; subst.
      destruct (IH w' r eq_refl) as [H1 H2]. simpl. rewrite Hc, H1. auto.
Qed.

Lemma string_length_app (a b : string) :
  String.length (a ++ b) = String.length a + String.length b.
Proof. induction a as [|c a IH]; simpl; auto. Qed.

Lemma alternating_word_cons (w : string) (rec : list string) :
  wordRun w = true ->
  rec = [] \/ (exists t ts, rec = t :: ts /\ wsRun t = true /\ alternatingRuns (t :: ts)) ->
  alternatingRuns (w :: rec).
Proof.
  intros Hw [->|(t & ts & -> & Ht & Hr)]; simpl; auto.
Qed.

Lemma alternating_cons2 (t u : string) (rest : list string) :
  (wsRun t = true /\ wordRun u = true) \/ (wordRun t = true /\ wsRun u = true) ->
  alternatingRuns (u :: rest) -> alternatingRuns (t :: u :: rest).
Proof. intros H1 H2. exact (conj H1 H2). Qed.

Lemma tokenizeLoop_runs (fuel : nat) : forall rest,
  String.length rest <= fuel ->
  match rest with
  | EmptyString => tokenizeLoop fuel rest = []
  | String c _ =>
      exists t ts, tokenizeLoop fuel rest = t :: ts /\
        (if is_ws c then wsRun t else wordRun t) = true /\
        alternatingRuns (t :: ts)
  end.
Proof.
  induction fuel as [|fuel IH]; intros rest Hlen.
  { destruct rest; [reflexivity | simpl in Hlen; lia]. }
  destruct rest as [|c r0]; [reflexivity|].
  cbn [tokenizeLoop].
  destruct (span_ws (String c r0)) as [ws after] eqn:E.
  pose proof (span_ws_app _ _ _ E) as Happ.
  destruct (span_ws_spec _ _ _ E) as [Hws Hafter].
  destruct after as [|c' a].
  - rewrite string_app_nil_r in Happ. subst ws. simpl. eexists _, [].
    split; [reflexivity|].
    assert (HR : wsRun (String c r0) = true) by (unfold wsRun; rewrite Hws; reflexivity).
    cbn [list_ascii_of_string forallb] in Hws.
    apply andb_true_iff in Hws. destruct Hws as [Hc _].
    rewrite Hc. split; [exact HR | left; exact HR].
  - destruct Hafter as [Hd|(c1 & r1 & Hc1 & Hnws)]; [discriminate|].
    injection Hc1 as <- <-.
    destruct (span_word (String c' a)) as [word rest'] eqn:E2.
    pose proof (span_word_app _ _ _ E2) as Happ2.
    destruct (span_word_spec _ _ _ E2) as [Hword Hrest'].
    assert (Hw : exists w', word = String c' w').
    { simpl in E2. rewrite Hnws in E2. destruct (span_word a).
      inversion E2; eauto. }
    destruct Hw as [w' ->].
    assert (HwR : wordRun (String c' w') = true).
    { unfold wordRun. rewrite Hword. reflexivity. }
    assert (Hl : String.length rest' <= fuel).
    { assert (String.length (String c r0) =
              String.length ws + S (String.length w') + String.length rest').
      { rewrite <- Happ, <- Happ2. rewrite !string_length_app. simpl. lia. }
      lia. }
    assert (Hrec : tokenizeLoop fuel rest' = [] \/
                   exists t ts, tokenizeLoop fuel rest' = t :: ts /\
                     wsRun t = true /\ alternatingRuns (t :: ts)).
    { specialize (IH rest' Hl).
      destruct Hrest' as [->|(c2 & r2 & -> & Hc2)]; [left; exact IH|].
      right. rewrite Hc2 in IH. exact IH. }
    destruct ws as [|cw ws'].
    + simpl in Happ. injection Happ as <- <-. rewrite Hnws. simpl.
      eexists _, _. split; [reflexivity|]. split; [exact HwR|].
      apply alternating_word_cons; [exact HwR|].
      destruct Hrec as [->|(t & ts & -> & Ht & Hr)]; [left; reflexivity|].
      right; eauto.
    + simpl in Happ. injection Happ as <- _.
      assert (HwsR : wsRun (String cw ws') = true).
      { unfold wsRun. rewrite Hws. reflexivity. }
      cbn [list_ascii_of_string forallb] in Hws.
      apply andb_true_iff in Hws. destruct Hws as [Hcw _].
      cbn [String.length Nat.ltb Nat.leb app]. rewrite Hcw.
      eexists _, _. split; [reflexivity|]. split; [exact HwsR|].
      apply alternating_cons2; [left; split; assumption|].
      apply alternating_word_cons; [exact HwR|].
      destruct Hrec as [->|(t & ts & -> & Ht & Hr)]; [left; reflexivity|].
      right; eauto.
Qed.

Lemma tokenize_runs_aux (text : string) :
  text <> EmptyString -> alternatingRuns (tokenize text).
Proof.
  intros Hne. unfold tokenize.
  pose proof (tokenizeLoop_runs (String.length text) text (le_n _)) as H.
  destruct text as [|c r]; [congruence|].
  destruct H as (t & ts & E & _ & Ha). rewrite E. exact Ha.
Qed.


Lemma tokenize_not_nil (text : string) : tokenize text <> [].
Proof.
  unfold tokenize. destruct (tokenizeLoop (String.length text) text); discriminate.
Qed.


(** ** computeCharDiff of a line against itself *)

Lemma cdLoop_self (T : list string) :
  forall k fuel i, i + k = List.length T -> k <= fuel ->
  cdLoop T T fuel (mkCDState i i (selfSpans T i) (selfSpans T i)) =
  mkCDState (List.length T) (List.length T)
    (selfSpans T (List.length T)) (selfSpans T (List.length T)).
Proof.
  induction k as [|k IH]; intros fuel i Hi Hf.
  - assert (E : i = List.length T) by lia. rewrite E. destruct fuel; simpl;
      unfold cdCond; cbn [leftIdx rightIdx]; rewrite Nat.ltb_irrefl; reflexivity.
  - destruct fuel as [|fuel]; [lia|]. cbn [cdLoop].
    unfold cdCond at 1; cbn [leftIdx rightIdx].
    destruct (Nat.ltb_spec i (List.length T)); [|lia]. simpl orb.
    replace (cdStep T T (mkCDState i i (selfSpans T i) (selfSpans T i)))
      with (mkCDState (S i) (S i) (selfSpans T (S i)) (selfSpans T (S i))).
    + apply IH; lia.
    + unfold cdStep; cbn [leftIdx rightIdx resLeft resRight].
      destruct (Nat.leb_spec (List.length T) i); [lia|]. rewrite String.eqb_refl.
      assert (E : pushMerge CEqual (at_ T i) (selfSpans T i) = selfSpans T (S i)).
      { unfold selfSpans. rewrite firstn_S_at, concatStr_snoc by lia.
        destruct i as [|i']; simpl; reflexivity. }
      now rewrite E.
Qed.

(** ** computeCharDiff: no empty span from non-empty tokens *)



Lemma enhanceLine_idem (d : DiffLine) : enhanceLine (enhanceLine d) = enhanceLine d.
Proof.
  destruct d as [ty ll rl ln rn lc rc]. unfold enhanceLine at 2; cbn [type leftLine rightLine].
  destruct ty, ll as [l|], rl as [r|]; try reflexivity.
  destruct (negb (String.eqb l EmptyString) && negb (String.eqb r EmptyString)) eqn:E;
    [|reflexivity].
  unfold enhanceLine; cbn [type leftLine rightLine]. rewrite E. reflexivity.
Qed.

(** ** Rows of the editor panes *)






(** ** computeDiff around one inserted or deleted line *)

(** Equal lines at offsets [a] (left) and [b] (right) give [equal] records. *)
Lemma diffLoop_run (LL RR : list string) (a b k0 : nat) :
  a + k0 <= List.length LL -> b + k0 <= List.length RR ->
  (forall t, t < k0 -> at_ LL (a + t) = at_ RR (b + t)) ->
  forall k fuel t acc, t + k = k0 -> k <= fuel ->
  diffLoop LL RR fuel (mkLoopState (a + t) (b + t) (S (a + t)) (S (b + t)) acc) =
  diffLoop LL RR (fuel - k)
    (mkLoopState (a + k0) (b + k0) (S (a + k0)) (S (b + k0))
       (acc ++ map (fun j => equalLine (at_ LL (a + j)) (at_ LL (a + j))
                               (S (a + j)) (S (b + j))) (seq t k))).
Proof.
  intros HL HR Heq k. induction k as [|k IH]; intros fuel t acc Ht Hf.
  - assert (E : t = k0) by lia. subst t. rewrite Nat.sub_0_r, app_nil_r. reflexivity.
  - destruct fuel as [|fuel]; [lia|].
    cbn [diffLoop]. unfold diffCond at 1; cbn [leftIndex].
    destruct (Nat.ltb_spec (a + t) (List.length LL)); [|lia]. simpl orb.
    replace (diffStep LL RR (mkLoopState (a + t) (b + t) (S (a + t)) (S (b + t)) acc))
      with (mkLoopState (a + S t) (b + S t) (S (a + S t)) (S (b + S t))
              (acc ++ [equalLine (at_ LL (a + t)) (at_ LL (a + t)) (S (a + t)) (S (b + t))])).
    + rewrite (IH fuel (S t)) by lia. rewrite <- app_assoc. reflexivity.
    + unfold diffStep; cbn [leftIndex rightIndex leftLineNum rightLineNum result].
      destruct (Nat.leb_spec (List.length LL) (a + t)); [lia|].
      destruct (Nat.leb_spec (List.length RR) (b + t)); [lia|].
      rewrite <- (Heq t) by lia. rewrite String.eqb_refl.
      f_equal; lia.
Qed.

Lemma at_app_r (A X : list string) (t : nat) : at_ (A ++ X) (List.length A + t) = at_ X t.
Proof. unfold at_. rewrite app_nth2_plus. reflexivity. Qed.

Lemma diffLoop_done (LL RR : list string) (fuel : nat) (st : LoopState) :
  leftIndex st = List.length LL -> rightIndex st = List.length RR ->
  diffLoop LL RR fuel st = st.
Proof.
  intros H1 H2. destruct fuel; simpl; unfold diffCond; rewrite H1, H2, !Nat.ltb_irrefl;
    reflexivity.
Qed.

(** With the positions in increasing order, [findBestMatch] returns the
    nearest position at or after [ri]. *)
Lemma findBestMatch_min (ri b : nat) (ms : list nat) : forall bm bd,
  In b ms \/ bm = Some b -> ri <= b ->
  (forall m, In m ms -> ri <= m -> b <= m) ->
  match bm with Some m => bd = Some (m - ri) /\ ri <= m /\ b <= m | None => bd = None end ->
  findBestMatch ri ms bm bd = Some b.
Proof.
  induction ms as [|x ms IH]; intros bm bd Hin Hb Hmin Hbm; simpl.
  - destruct Hin as [[]| ->]; reflexivity.
  - destruct (Nat.leb_spec ri x) as [Hx|Hx].
    + assert (Hbx : b <= x) by (apply Hmin; simpl; auto).
      destruct bd as [d|] eqn:Ebd.
      * destruct bm as [m|]; [|discriminate].
        destruct Hbm as (Ed & Hm & Hbm'). injection Ed as ->.
        destruct (Nat.ltb_spec (x - ri) (m - ri)).
        -- apply IH; auto; [|intros; apply Hmin; simpl; auto].
           destruct Hin as [[->|Hin]|Hin]; auto. injection Hin as ->. lia.
        -- apply IH; auto; [|intros; apply Hmin; simpl; auto].
           destruct Hin as [[->|Hin]|Hin]; auto. right. f_equal. lia.
      * destruct bm as [m|]; [destruct Hbm; discriminate|].
        apply IH; auto; [|intros; apply Hmin; simpl; auto].
        destruct Hin as [[->|Hin]|Hin]; auto. discriminate.
    + apply IH; auto; [|intros; apply Hmin; simpl; auto].
      destruct Hin as [[->|Hin]|Hin]; auto. lia.
Qed.

(** No position at or after [ri]: no best match. *)
Lemma findBestMatch_none (ri : nat) (ms : list nat) :
  (forall m, In m ms -> m < ri) -> findBestMatch ri ms None None = None.
Proof.
  induction ms as [|x ms IH]; intros H; simpl; [reflexivity|].
  destruct (Nat.leb_spec ri x) as [Hx|Hx]; [specialize (H x (or_introl eq_refl)); lia|].
  apply IH. intros m Hm. apply H. simpl. auto.
Qed.

Lemma rightLineMap_get_In (rightLines : list string) (line : string) (x : nat) :
  x < List.length rightLines -> at_ rightLines x = line ->
  In x (rightLineMap_get rightLines line).
Proof.
  intros Hx He. unfold rightLineMap_get. apply filter_In. rewrite in_seq.
  split; [lia | apply String.eqb_eq, He].
Qed.

(** At the first differing line, an inserted line [x] that differs from
    the next left line is pushed as one [insert]. *)
Lemma diffStep_inserted (A B : list string) (x : string) (acc : list DiffLine) :
  (forall y B', B = y :: B' -> y <> x) ->
  diffStep (A ++ B) (A ++ x :: B)
    (mkLoopState (List.length A) (List.length A) (S (List.length A)) (S (List.length A)) acc) =
  mkLoopState (List.length A) (S (List.length A)) (S (List.length A)) (S (S (List.length A)))
    (acc ++ [insertLine x (S (List.length A))]).
Proof.
  intros Hy.
  assert (Hx : at_ (A ++ x :: B) (List.length A) = x).
  { pose proof (at_app_r A (x :: B) 0) as H. rewrite Nat.add_0_r in H. exact H. }
  destruct B as [|y B'].
  - unfold diffStep; cbn [leftIndex rightIndex leftLineNum rightLineNum result].
    rewrite app_nil_r, Nat.leb_refl. unfold pushInsert; simpl. rewrite Hx. reflexivity.
  - specialize (Hy y B' eq_refl).
    assert (Hl : at_ (A ++ y :: B') (List.length A) = y).
    { pose proof (at_app_r A (y :: B') 0) as H. rewrite Nat.add_0_r in H. exact H. }
    assert (Hr1 : at_ (A ++ x :: y :: B') (S (List.length A)) = y).
    { pose proof (at_app_r A (x :: y :: B') 1) as H. rewrite Nat.add_1_r in H. exact H. }
    assert (Hbm : findBestMatch (List.length A)
                    (rightLineMap_get (A ++ x :: y :: B') y) None None
                  = Some (S (List.length A))).
    { apply findBestMatch_min; [left | lia | | reflexivity].
      - apply rightLineMap_get_In; [rewrite length_app; simpl; lia | exact Hr1].
      - intros m Hm Hle. apply rightLineMap_get_spec in Hm. destruct Hm as [_ Hm].
        destruct (Nat.eq_dec m (List.length A)) as [->|]; [|lia].
        rewrite Hx in Hm. congruence. }
    unfold diffStep; cbv zeta; cbn [leftIndex rightIndex leftLineNum rightLineNum result].
    destruct (Nat.leb_spec (List.length (A ++ y :: B')) (List.length A));
      [rewrite length_app in *; simpl in *; lia|].
    destruct (Nat.leb_spec (List.length (A ++ x :: y :: B')) (List.length A));
      [rewrite length_app in *; simpl in *; lia|].
    rewrite Hl, Hx. destruct (String.eqb_spec y x); [congruence|].
    rewrite Hbm.
    destruct (findLeftMatch (A ++ y :: B') x (S (List.length A)) _) as [a|];
      unfold opt_test, is_none, opt_get; rewrite ?Nat.eqb_refl; simpl andb.
    + assert (Hlt : (S (List.length A) <? List.length A + 10) = true)
        by (apply Nat.ltb_lt; lia).
      destruct (a =? S (List.length A)); cbn [andb negb]; rewrite Hlt;
        replace (S (List.length A) - List.length A) with 1 by lia;
        cbn [insertUntil]; unfold pushInsert;
        cbn [leftIndex rightIndex leftLineNum rightLineNum result];
        rewrite Hx; reflexivity.
    + unfold pushInsert; cbn [leftIndex rightIndex leftLineNum rightLineNum result].
      rewrite Hx. reflexivity.
Qed.

(** At the first differing line, a deleted line [x] that does not occur
    in the rest of the right side is pushed as one [delete]. *)
Lemma diffStep_deleted (A B : list string) (x : string) (acc : list DiffLine) :
  ~ In x B ->
  diffStep (A ++ x :: B) (A ++ B)
    (mkLoopState (List.length A) (List.length A) (S (List.length A)) (S (List.length A)) acc) =
  mkLoopState (S (List.length A)) (List.length A) (S (S (List.length A))) (S (List.length A))
    (acc ++ [deleteLine x (S (List.length A))]).
Proof.
  intros Hnx.
  assert (Hx : at_ (A ++ x :: B) (List.length A) = x).
  { pose proof (at_app_r A (x :: B) 0) as H. rewrite Nat.add_0_r in H. exact H. }
  destruct B as [|y B'].
  - unfold diffStep; cbn [leftIndex rightIndex leftLineNum rightLineNum result].
    rewrite length_app. simpl List.length.
    destruct (Nat.leb_spec (List.length A + 1) (List.length A)); [lia|].
    rewrite app_nil_r, Nat.leb_refl. unfold pushDelete.
    cbn [leftIndex rightIndex leftLineNum rightLineNum result]. rewrite Hx. reflexivity.
  - assert (Hxy : y <> x) by (intros ->; apply Hnx; simpl; auto).
    assert (Hr : at_ (A ++ y :: B') (List.length A) = y).
    { pose proof (at_app_r A (y :: B') 0) as H. rewrite Nat.add_0_r in H. exact H. }
    assert (Hl1 : at_ (A ++ x :: y :: B') (S (List.length A)) = y).
    { pose proof (at_app_r A (x :: y :: B') 1) as H. rewrite Nat.add_1_r in H. exact H. }
    assert (Hbm : findBestMatch (List.length A)
                    (rightLineMap_get (A ++ y :: B') x) None None = None).
    { apply findBestMatch_none. intros m Hm. apply rightLineMap_get_spec in Hm.
      destruct Hm as [Hlt Hm].
      destruct (Nat.lt_ge_cases m (List.length A)) as [|Hge]; [assumption|].
      exfalso. apply Hnx. rewrite <- Hm.
      replace m with (List.length A + (m - List.length A)) by lia.
      rewrite at_app_r. unfold at_. apply nth_In.
      rewrite length_app in Hlt. lia. }
    assert (Hlm : findLeftMatch (A ++ x :: y :: B') y (S (List.length A))
                    (Nat.min (List.length A + 20) (List.length (A ++ x :: y :: B'))
                     - S (List.length A)) = Some (S (List.length A))).
    { rewrite length_app. simpl List.length.
      destruct (Nat.min (List.length A + 20) (List.length A + S (S (List.length B')))
                - S (List.length A)) eqn:E; [lia|].
      simpl. rewrite Hl1, String.eqb_refl. reflexivity. }
    unfold diffStep; cbv zeta; cbn [leftIndex rightIndex leftLineNum rightLineNum result].
    destruct (Nat.leb_spec (List.length (A ++ x :: y :: B')) (List.length A));
      [rewrite length_app in *; simpl in *; lia|].
    destruct (Nat.leb_spec (List.length (A ++ y :: B')) (List.length A));
      [rewrite length_app in *; simpl in *; lia|].
    rewrite Hx, Hr. destruct (String.eqb_spec x y); [congruence|].
    rewrite Hbm, Hlm. unfold opt_test, is_none. rewrite Nat.eqb_refl.
    cbn [andb]. unfold pushDelete.
    cbn [leftIndex rightIndex leftLineNum rightLineNum result]. rewrite Hx. reflexivity.
Qed.

Lemma computeDiff_insert_loop (A B : list string) (x : string) :
  (forall y B', B = y :: B' -> y <> x) ->
  result (diffLoop (A ++ B) (A ++ x :: B) (diffFuel (A ++ B) (A ++ x :: B)) diffInit) =
    equalRecs A (List.length A) ++ insertLine x (S (List.length A)) ::
    map (fun t => equalLine (at_ B t) (at_ B t) (S (List.length A + t))
                            (S (S (List.length A + t)))) (seq 0 (List.length B)).
Proof.
  intros Hy. unfold diffFuel, diffInit.
  change (mkLoopState 0 0 1 1 []) with
    (mkLoopState 0 0 (S 0) (S 0) (equalRecs (A ++ B) 0)).
  rewrite (diffLoop_common (A ++ B) (A ++ x :: B) (List.length A)) with (k := List.length A);
    rewrite ?length_app; cbn [List.length]; try lia;
    [| intros j Hj; rewrite !at_app_l by exact Hj; reflexivity].
  replace (List.length A + List.length B + (List.length A + S (List.length B)) - List.length A)
    with (S (List.length A + (List.length B + List.length B))) by lia.
  cbn [diffLoop]. unfold diffCond at 1; cbn [leftIndex rightIndex].
  replace (List.length A <? List.length (A ++ x :: B)) with true
    by (symmetry; apply Nat.ltb_lt; rewrite length_app; simpl; lia).
  rewrite orb_true_r, diffStep_inserted by exact Hy.
  pose proof (diffLoop_run (A ++ B) (A ++ x :: B) (List.length A) (S (List.length A))
                (List.length B)) as Hrun.
  rewrite !length_app in Hrun. cbn [List.length] in Hrun.
  specialize (Hrun ltac:(lia) ltac:(lia)).
  specialize (Hrun ltac:(intros t Ht; rewrite at_app_r;
                          replace (S (List.length A) + t) with (List.length A + S t) by lia;
                          rewrite at_app_r; reflexivity)).
  specialize (Hrun (List.length B) (List.length A + (List.length B + List.length B)) 0
                (equalRecs (A ++ B) (List.length A) ++ [insertLine x (S (List.length A))])
                eq_refl ltac:(lia)).
  rewrite !Nat.add_0_r in Hrun. rewrite Hrun.
  rewrite diffLoop_done by (cbn [leftIndex rightIndex]; rewrite length_app; simpl; lia).
  cbn [result]. rewrite <- app_assoc.
  rewrite (equalRecs_ext (A ++ B) A) by (intros j Hj; apply at_app_l, Hj).
  f_equal. cbn [app]. f_equal. apply map_ext. intros t. rewrite at_app_r. reflexivity.
Qed.

Lemma computeDiff_delete_loop (A B : list string) (x : string) :
  ~ In x B ->
  result (diffLoop (A ++ x :: B) (A ++ B) (diffFuel (A ++ x :: B) (A ++ B)) diffInit) =
    equalRecs A (List.length A) ++ deleteLine x (S (List.length A)) ::
    map (fun t => equalLine (at_ B t) (at_ B t) (S (S (List.length A + t)))
                            (S (List.length A + t))) (seq 0 (List.length B)).
Proof.
  intros Hnx. unfold diffFuel, diffInit.
  change (mkLoopState 0 0 1 1 []) with
    (mkLoopState 0 0 (S 0) (S 0) (equalRecs (A ++ x :: B) 0)).
  rewrite (diffLoop_common (A ++ x :: B) (A ++ B) (List.length A)) with (k := List.length A);
    rewrite ?length_app; cbn [List.length]; try lia;
    [| intros j Hj; rewrite !at_app_l by exact Hj; reflexivity].
  replace (List.length A + S (List.length B) + (List.length A + List.length B) - List.length A)
    with (S (List.length A + (List.length B + List.length B))) by lia.
  cbn [diffLoop]. unfold diffCond at 1; cbn [leftIndex rightIndex].
  replace (List.length A <? List.length (A ++ x :: B)) with true
    by (symmetry; apply Nat.ltb_lt; rewrite length_app; simpl; lia).
  rewrite orb_true_l, diffStep_deleted by exact Hnx.
  pose proof (diffLoop_run (A ++ x :: B) (A ++ B) (S (List.length A)) (List.length A)
                (List.length B)) as Hrun.
  rewrite !length_app in Hrun. cbn [List.length] in Hrun.
  specialize (Hrun ltac:(lia) ltac:(lia)).
  specialize (Hrun ltac:(intros t Ht; rewrite at_app_r;
                          replace (S (List.length A) + t) with (List.length A + S t) by lia;
                          rewrite at_app_r; reflexivity)).
  specialize (Hrun (List.length B) (List.length A + (List.length B + List.length B)) 0
                (equalRecs (A ++ x :: B) (List.length A) ++ [deleteLine x (S (List.length A))])
                eq_refl ltac:(lia)).
  rewrite !Nat.add_0_r in Hrun. rewrite Hrun.
  rewrite diffLoop_done by (cbn [leftIndex rightIndex]; rewrite length_app; simpl; lia).
  cbn [result]. rewrite <- app_assoc.
  rewrite (equalRecs_ext (A ++ x :: B) A) by (intros j Hj; apply at_app_l, Hj).
  f_equal. cbn [app]. f_equal. apply map_ext. intros t.
  replace (S (List.length A) + t) with (List.length A + S t) by lia. rewrite at_app_r.
  f_equal; (reflexivity || lia).
Qed.


(** ** Further properties of the code *)

(** [normalizeNewlines] leaves no carriage return, and it changes a
    string exactly when the string holds one. *)
Theorem normalizeNewlines_removes_CR (s : string) :
  ~ hasChar CR (normalizeNewlines s) /\ (normalizeNewlines s = s <-> ~ hasChar CR s).
Proof.
  split; [apply normalizeNewlines_no_CR_aux|].
  split; [intros E; rewrite <- E; apply normalizeNewlines_no_CR_aux | apply normalizeNewlines_fix].
Qed.

(** [computeDiff] treats CRLF, lone CR and LF line breaks alike: the
    records for two texts are those for their normalised forms. *)
Theorem computeDiff_line_endings (left right : string) :
  computeDiff left right = computeDiff (normalizeNewlines left) (normalizeNewlines right).
Proof. unfold computeDiff. rewrite !normalizeNewlines_idem. reflexivity. Qed.

(** [splitLines] cuts a text at its line feeds: joining its lines with
    ["\n"] gives the text back, and no line holds a line feed. *)
Theorem splitLines_join (text : string) :
  String.concat nl (splitLines text) = text /\
  Forall (fun l => ~ hasChar LF l) (splitLines text).
Proof.
  unfold splitLines. destruct (Nat.eqb_spec (String.length text) 0) as [H|H].
  - rewrite (length_zero_empty text H). split; [reflexivity | constructor].
  - split; [apply split_nl_join | apply split_nl_pieces].
Qed.

(** The empty text has no lines; any other text has one line more than
    it has line feeds. *)
Theorem splitLines_count (text : string) :
  List.length (splitLines text) =
    if String.eqb text EmptyString then 0 else S (countChar LF text).
Proof.
  unfold splitLines. destruct text as [|c r]; [reflexivity|].
  simpl String.length. cbn [Nat.eqb]. simpl String.eqb.
  apply split_nl_pieces.
Qed.

(** Every record of [computeDiff] is one of its four object literals: an
    [insert] with only a right text and number, a [delete] with only a
    left text and number, an [equal] with the same text on both sides, or
    a [modify] with two different texts; none carries span fields. *)
Theorem computeDiff_record_shapes (left right : string) :
  Forall pushedRecord (computeDiff left right).
Proof. apply computeDiff_pushed. Qed.

(** An empty side has no lines: against it, every line of the other side
    becomes an [insert] (or a [delete]) numbered from 1, in order. *)
Theorem computeDiff_empty_side (left right : string) :
  computeDiff "" right =
    insertRecs (splitLines (normalizeNewlines right)) 0
      (List.length (splitLines (normalizeNewlines right))) /\
  computeDiff left "" =
    deleteRecs (splitLines (normalizeNewlines left)) 0
      (List.length (splitLines (normalizeNewlines left))).
Proof.
  unfold computeDiff. cbv zeta. split.
  - rewrite diffLoop_inserts; cbn [result leftIndex rightIndex rightLineNum app];
      rewrite ?Nat.sub_0_r; [reflexivity | simpl; lia | reflexivity | ].
    unfold diffFuel. simpl. lia.
  - rewrite diffLoop_deletes; cbn [result leftIndex rightIndex leftLineNum app];
      rewrite ?Nat.sub_0_r; [reflexivity | simpl; lia | reflexivity | ].
    unfold diffFuel. simpl. lia.
Qed.

(** Two identical texts give only [equal] records, line [j] paired with
    line [j] on both sides. *)
Theorem computeDiff_identical (text : string) :
  computeDiff text text =
    equalRecs (splitLines (normalizeNewlines text))
      (List.length (splitLines (normalizeNewlines text))).
Proof.
  unfold computeDiff; cbv zeta.
  pose proof (computeDiff_prefix_loop (splitLines (normalizeNewlines text)) []) as H.
  rewrite app_nil_r in H. rewrite H. simpl. apply app_nil_r.
Qed.

(** When the right lines are the left lines followed by more lines, the
    result is an [equal] record for each left line and then an [insert]
    for each added line, numbered on from the left line count. *)
Theorem computeDiff_appended_lines (left right : string) (X : list string) :
  splitLines (normalizeNewlines right) = splitLines (normalizeNewlines left) ++ X ->
  computeDiff left right =
    equalRecs (splitLines (normalizeNewlines left))
      (List.length (splitLines (normalizeNewlines left))) ++
    insertRecs (splitLines (normalizeNewlines right))
      (List.length (splitLines (normalizeNewlines left))) (List.length X).
Proof.
  intros H. unfold computeDiff; cbv zeta. rewrite H. apply computeDiff_prefix_loop.
Qed.

Lemma computeDiff_appended_lines_witness :
  splitLines (normalizeNewlines ("a" ++ nl ++ "b")) =
    splitLines (normalizeNewlines "a") ++ ["b"] /\
  computeDiff "a" ("a" ++ nl ++ "b") =
    equalRecs ["a"] 1 ++ insertRecs ["a"; "b"] 1 1.
Proof.
  assert (H : splitLines (normalizeNewlines ("a" ++ nl ++ "b")) =
              splitLines (normalizeNewlines "a") ++ ["b"]) by (vm_compute; reflexivity).
  split; [exact H|].
  exact (computeDiff_appended_lines "a" ("a" ++ nl ++ "b") ["b"] H).
Defined.

(** When the left lines are the right lines followed by more lines, the
    result is an [equal] record for each right line and then a [delete]
    for each extra left line. *)
Theorem computeDiff_removed_tail (left right : string) (X : list string) :
  splitLines (normalizeNewlines left) = splitLines (normalizeNewlines right) ++ X ->
  computeDiff left right =
    equalRecs (splitLines (normalizeNewlines right))
      (List.length (splitLines (normalizeNewlines right))) ++
    deleteRecs (splitLines (normalizeNewlines left))
      (List.length (splitLines (normalizeNewlines right))) (List.length X).
Proof.
  intros H. unfold computeDiff; cbv zeta. rewrite H. apply computeDiff_prefix_loop_del.
Qed.

Lemma computeDiff_removed_tail_witness :
  splitLines (normalizeNewlines ("a" ++ nl ++ "b")) =
    splitLines (normalizeNewlines "a") ++ ["b"] /\
  computeDiff ("a" ++ nl ++ "b") "a" =
    equalRecs ["a"] 1 ++ deleteRecs ["a"; "b"] 1 1.
Proof.
  assert (H : splitLines (normalizeNewlines ("a" ++ nl ++ "b")) =
              splitLines (normalizeNewlines "a") ++ ["b"]) by (vm_compute; reflexivity).
  split; [exact H|].
  exact (computeDiff_removed_tail ("a" ++ nl ++ "b") "a" ["b"] H).
Defined.

(** [tokenize] cuts a non-empty text into maximal runs: the tokens join
    back to the text, each token is a non-empty run of whitespace or of
    non-whitespace, and two adjacent tokens are never of the same class. *)
Theorem tokenize_runs (text : string) :
  text <> EmptyString ->
  concatStr (tokenize text) = text /\ alternatingRuns (tokenize text).
Proof.
  intros H. split; [apply tokenize_concat | apply tokenize_runs_aux, H].
Qed.

Lemma tokenize_runs_witness :
  "a  b" <> EmptyString /\
  concatStr (tokenize "a  b") = "a  b" /\ alternatingRuns (tokenize "a  b").
Proof.
  assert (H : "a  b" <> EmptyString) by discriminate.
  split; [exact H | exact (tokenize_runs "a  b" H)].
Defined.

(** A line diffed against itself is one [equal] span holding the whole
    line on each side. *)
Theorem computeCharDiff_self (l : string) :
  computeCharDiff l l = ([mkCharDiff CEqual l], [mkCharDiff CEqual l]).
Proof.
  unfold computeCharDiff, cdFuel, cdInit; cbv zeta.
  change (mkCDState 0 0 [] []) with
    (mkCDState 0 0 (selfSpans (tokenize l) 0) (selfSpans (tokenize l) 0)).
  rewrite (cdLoop_self (tokenize l) (List.length (tokenize l))) by lia.
  cbn [resLeft resRight]. unfold selfSpans.
  destruct (List.length (tokenize l)) eqn:E.
  - apply length_zero_iff_nil in E. exfalso. exact (tokenize_not_nil l E).
  - rewrite <- E, firstn_all, tokenize_concat. reflexivity.
Qed.

(** The left spans of [computeCharDiff] are never [insert] spans and the
    right spans never [delete] spans; so in the editor's lines every left
    span is [equal] or [delete] and every right span [equal] or [insert]. *)
Theorem computeCharDiff_side_kinds (left right l r : string) :
  Forall (fun c => char_type c <> CInsert) (fst (computeCharDiff l r)) /\
  Forall (fun c => char_type c <> CDelete) (snd (computeCharDiff l r)) /\
  Forall (fun d =>
     match leftCharDiffs d with
     | Some xs => Forall (fun c => char_type c <> CInsert) xs | None => True end /\
     match rightCharDiffs d with
     | Some xs => Forall (fun c => char_type c <> CDelete) xs | None => True end)
    (editorDiffLines left right).
Proof.
  assert (Hcd : forall l r,
    Forall (fun c => char_type c <> CInsert) (fst (computeCharDiff l r)) /\
    Forall (fun c => char_type c <> CDelete) (snd (computeCharDiff l r))).
  { intros l' r'. unfold computeCharDiff; cbv zeta; cbn [fst snd].
    refine (cdLoop_preserve (tokenize l') (tokenize r')
              (fun st => Forall (fun c => char_type c <> CInsert) (resLeft st) /\
                         Forall (fun c => char_type c <> CDelete) (resRight st))
              _ _ _ _).
    - intros st H _. apply cdStep_kinds, H.
    - split; constructor. }
  split; [apply Hcd|]. split; [apply Hcd|].
  unfold editorDiffLines, enhanceWithCharDiffs. apply Forall_map.
  destruct (computeDiff_final left right) as (_ & _ & Hsh).
  eapply Forall_impl; [|exact Hsh]. intros d (_ & Hlc & Hrc & _).
  unfold enhanceLine.
  destruct (type d), (leftLine d), (rightLine d);
    try (rewrite Hlc, Hrc; split; exact I).
  destruct (negb (String.eqb s EmptyString) && negb (String.eqb s0 EmptyString));
    [cbn [leftCharDiffs rightCharDiffs]; apply Hcd | rewrite Hlc, Hrc; split; exact I].
Qed.

(** The [equal] spans spell the same text on both sides. *)
Theorem computeCharDiff_equal_text (l r : string) :
  equalText (fst (computeCharDiff l r)) = equalText (snd (computeCharDiff l r)).
Proof.
  unfold computeCharDiff; cbv zeta; cbn [fst snd].
  refine (cdLoop_preserve (tokenize l) (tokenize r)
            (fun st => equalText (resLeft st) = equalText (resRight st)) _ _ _ _).
  - intros st H _. apply cdStep_equalText, H.
  - reflexivity.
Qed.



(** Enhancing twice is enhancing once. *)
Theorem enhance_idempotent (recs : list DiffLine) :
  enhanceWithCharDiffs (enhanceWithCharDiffs recs) = enhanceWithCharDiffs recs.
Proof.
  unfold enhanceWithCharDiffs. rewrite map_map. apply map_ext. apply enhanceLine_idem.
Qed.

(** The editor's [totalLines] is the larger of the two line counts. *)
Theorem diffStats_totalLines (left right : string) :
  totalLines (diffStats (editorDiffLines left right)) =
    Nat.max (List.length (splitLines (normalizeNewlines left)))
            (List.length (splitLines (normalizeNewlines right))).
Proof.
  unfold editorDiffLines. rewrite diffStats_enhance.
  destruct (computeDiff_final left right) as (H1 & H2 & _). cbv zeta in H1, H2.
  unfold diffStats; cbn [totalLines].
  rewrite count_truthy_left, count_truthy_right, countLeft_entries, countRight_entries,
    H1, H2, !sideCover_length by (rewrite ?H1, ?H2; apply sideCover_no_zero).
  reflexivity.
Qed.

(** The editor's counts balance with the line counts: [added] plus the
    left line count equals [removed] plus the right line count, and
    [removed + modified] (resp. [added + modified]) is at most the left
    (resp. right) line count. *)
Theorem diffStats_balance (left right : string) :
  let s := diffStats (editorDiffLines left right) in
  added s + List.length (splitLines (normalizeNewlines left)) =
    removed s + List.length (splitLines (normalizeNewlines right)) /\
  removed s + modified s <= List.length (splitLines (normalizeNewlines left)) /\
  added s + modified s <= List.length (splitLines (normalizeNewlines right)).
Proof.
  cbv zeta. unfold editorDiffLines. rewrite diffStats_enhance.
  destruct (computeDiff_final left right) as (H1 & H2 & _). cbv zeta in H1, H2.
  pose proof (stats_counts _ (computeDiff_pushed left right)) as H.
  rewrite countLeft_entries, countRight_entries, H1, H2, !sideCover_length in H.
  exact H.
Qed.


(** One line [x] inserted into the left text, where [x] differs from the
    line it is inserted before, is reported as exactly one [insert]
    between [equal] records: the lines before it keep their numbers, the
    lines after it are paired with a right number one higher. *)
Theorem computeDiff_one_inserted_line (left right : string) (A B : list string) (x : string) :
  splitLines (normalizeNewlines left) = A ++ B ->
  splitLines (normalizeNewlines right) = A ++ x :: B ->
  (forall y B', B = y :: B' -> y <> x) ->
  computeDiff left right =
    equalRecs A (List.length A) ++ insertLine x (S (List.length A)) ::
    map (fun t => equalLine (at_ B t) (at_ B t) (S (List.length A + t))
                            (S (S (List.length A + t)))) (seq 0 (List.length B)).
Proof.
  intros HL HR Hy. unfold computeDiff; cbv zeta. rewrite HL, HR.
  apply computeDiff_insert_loop, Hy.
Qed.

Lemma computeDiff_one_inserted_line_witness :
  computeDiff ("a" ++ nl ++ "c") ("a" ++ nl ++ "b" ++ nl ++ "c") =
    equalRecs ["a"] 1 ++ insertLine "b" 2 ::
    map (fun t => equalLine (at_ ["c"] t) (at_ ["c"] t) (S (1 + t)) (S (S (1 + t))))
      (seq 0 1).
Proof.
  exact (computeDiff_one_inserted_line ("a" ++ nl ++ "c") ("a" ++ nl ++ "b" ++ nl ++ "c")
           ["a"] ["c"] "b" ltac:(vm_compute; reflexivity) ltac:(vm_compute; reflexivity)
           ltac:(intros y B' H; injection H as <- _; discriminate)).
Defined.

(** One line [x] deleted from the left text, where [x] does not occur in
    the lines after it, is reported as exactly one [delete] between
    [equal] records.  (When [x] occurs further down the right side, the
    look-ahead may pair it there instead.) *)
Theorem computeDiff_one_deleted_line (left right : string) (A B : list string) (x : string) :
  splitLines (normalizeNewlines left) = A ++ x :: B ->
  splitLines (normalizeNewlines right) = A ++ B ->
  ~ In x B ->
  computeDiff left right =
    equalRecs A (List.length A) ++ deleteLine x (S (List.length A)) ::
    map (fun t => equalLine (at_ B t) (at_ B t) (S (S (List.length A + t)))
                            (S (List.length A + t))) (seq 0 (List.length B)).
Proof.
  intros HL HR Hnx. unfold computeDiff; cbv zeta. rewrite HL, HR.
  apply computeDiff_delete_loop, Hnx.
Qed.

Lemma computeDiff_one_deleted_line_witness :
  computeDiff ("a" ++ nl ++ "b" ++ nl ++ "c") ("a" ++ nl ++ "c") =
    equalRecs ["a"] 1 ++ deleteLine "b" 2 ::
    map (fun t => equalLine (at_ ["c"] t) (at_ ["c"] t) (S (S (1 + t))) (S (1 + t)))
      (seq 0 1).
Proof.
  exact (computeDiff_one_deleted_line ("a" ++ nl ++ "b" ++ nl ++ "c") ("a" ++ nl ++ "c")
           ["a"] ["c"] "b" ltac:(vm_compute; reflexivity) ltac:(vm_compute; reflexivity)
           ltac:(simpl; intros [H|[]]; discriminate)).
Defined.
